(** * git-contributors: a shallow embedding of [authors.go]

    The program reconciles the commit history of a git repository with a
    curated AUTHORS roster.  Go strings are byte sequences and are modelled
    by [string] (lists of 8-bit [ascii]); Go's [int] is modelled by [Z];
    slices are lists; maps are [gmap]s and the string set is a [gset]. *)

From Stdlib Require Import ZArith Ascii String List Sorted Permutation.
From Stdlib Require Import PrimFloat.
From Stdlib Require SpecFloat FloatOps.
From stdpp Require Import gmap strings list fin_maps sorting.
From Equations Require Import Equations.
From Equations.Prop Require Import Logic.

Local Open Scope string_scope.
Local Open Scope Z_scope.

#[local] Arguments String.append !_ _ / : simpl nomatch.

(** ** Byte strings *)

Module Str.

(** [strings.Contains(s, sub)]: some suffix of [s] starts with [sub]. *)
Fixpoint Contains (s sub : string) : bool :=
  String.prefix sub s ||
  match s with
  | EmptyString => false
  | String _ s' => Contains s' sub
  end.

(** Splitting at the first occurrence of the byte [c]. *)
Fixpoint cut (c : ascii) (s : string) : option (string * string) :=
  match s with
  | EmptyString => None
  | String a s' =>
      if Ascii.eqb a c then Some (EmptyString, s')
      else match cut c s' with
           | Some (l, r) => Some (String a l, r)
           | None => None
           end
  end.

(** [strings.SplitN(s, sep, n)] for a one-byte separator and [n > 0]: at
    most [n] pieces, the last one being the unsplit remainder. *)
Fixpoint SplitN (c : ascii) (s : string) (n : nat) : list string :=
  match n with
  | O => []
  | S O => [s]
  | S n' =>
      match cut c s with
      | Some (l, r) => l :: SplitN c r n'
      | None => [s]
      end
  end.

(** [strings.Split(s, sep)] for a one-byte separator: every piece between
    separators, the empty string giving one empty piece. *)
Fixpoint Split (c : ascii) (s : string) : list string :=
  match s with
  | EmptyString => [EmptyString]
  | String a s' =>
      if Ascii.eqb a c then EmptyString :: Split c s'
      else match Split c s' with
           | l :: ls => String a l :: ls
           | [] => [String a EmptyString]
           end
  end.

(** [strings.Join(l, sep)]. *)
Fixpoint Join (sep : string) (l : list string) : string :=
  match l with
  | [] => EmptyString
  | [x] => x
  | x :: l' => x ++ sep ++ Join sep l'
  end.

(** The white space of [unicode.IsSpace] that fits in one byte:
    tab, line feed, vertical tab, form feed, carriage return, space. *)
Definition isAsciiSpace (a : ascii) : bool :=
  let n := N_of_ascii a in
  ((9 <=? n) && (n <=? 13) || (n =? 32))%N.

(** The other white space of [unicode.IsSpace], as UTF-8: U+0085, U+00A0,
    U+1680, U+2000..U+200A, U+2028, U+2029, U+202F, U+205F, U+3000.
    A lead byte always starts a rune in Go's decoding, so looking at the
    bytes is enough.  The result is the width of the white-space rune at
    the head of [s], or [0] when there is none. *)
Definition spaceWidth (s : string) : nat :=
  match s with
  | EmptyString => 0
  | String a s1 =>
      if isAsciiSpace a then 1
      else
        match N_of_ascii a, s1 with
        | 194%N, String b _ =>
            let m := N_of_ascii b in
            if ((m =? 133) || (m =? 160))%N then 2 else 0
        | 225%N, String b (String c _) =>
            if ((N_of_ascii b =? 154) && (N_of_ascii c =? 128))%N then 3 else 0
        | 226%N, String b (String c _) =>
            let m := N_of_ascii b in
            let k := N_of_ascii c in
            if ((m =? 128) &&
                ((128 <=? k) && (k <=? 138) || (k =? 168) || (k =? 169) || (k =? 175))
                || (m =? 129) && (k =? 159))%N
            then 3 else 0
        | 227%N, String b (String c _) =>
            if ((N_of_ascii b =? 128) && (N_of_ascii c =? 128))%N then 3 else 0
        | _, _ => 0
        end
  end%nat.

(** [strings.Fields] with the bytes of a white-space rune still to skip
    ([skip]) and the field being read ([cur], reversed). *)
Fixpoint fieldsAux (skip : nat) (cur : list ascii) (s : string) : list string :=
  let flush :=
    match cur with
    | [] => []
    | _ => [string_of_list_ascii (rev cur)]
    end in
  match s with
  | EmptyString => flush
  | String a s' =>
      match skip with
      | S k => fieldsAux k cur s'
      | O =>
          match spaceWidth s with
          | O => fieldsAux O (a :: cur) s'
          | S k => (flush ++ fieldsAux k [] s')%list
          end
      end
  end%nat.

(** [strings.Fields(s)]: the maximal runs of non-white-space. *)
Definition Fields (s : string) : list string := fieldsAux 0 [] s.

End Str.

(** ** Regular expressions of the roster format *)

Module Re.

(** The class [\s] of Go's regexp syntax: tab, line feed, form feed,
    carriage return, space (no vertical tab). *)
Definition isSpace (a : ascii) : bool :=
  let n := N_of_ascii a in
  ((n =? 9) || (n =? 10) || (n =? 12) || (n =? 13) || (n =? 32))%N.

(** The greedy [[^\s]*] followed by the closing byte [c]: the longest
    prefix of [s] free of [\s] that is followed by [c]. *)
Fixpoint greedy (c : ascii) (s : string) : option string :=
  match s with
  | EmptyString => None
  | String a s' =>
      if isSpace a then
        (if Ascii.eqb a c then Some EmptyString else None)
      else
        match greedy c s' with
        | Some g => Some (String a g)
        | None => if Ascii.eqb a c then Some EmptyString else None
        end
  end.

(** [FindStringSubmatch] for a pattern made of the byte [o], a captured
    greedy run of non-[\s] bytes and the byte [c], unanchored: the
    leftmost position where the pattern matches, and there the capture
    group.  [None] is Go's [nil] result ([len(m) > 1] fails). *)
Fixpoint find (o c : ascii) (s : string) : option string :=
  match s with
  | EmptyString => None
  | String a s' =>
      if Ascii.eqb a o then
        match greedy c s' with
        | Some g => Some g
        | None => find o c s'
        end
      else find o c s'
  end.

Definition nicknameRe : string -> option string := find "(" ")".
Definition emailRe : string -> option string := find "<" ">".

End Re.

(** ** The data model *)

Record author := mkAuthor {
  name : string;
  nickname : string;
  emails : list string;
  commits : Z;
  geekrank : Z
}.

(** Go's zero value of the struct. *)
Definition zeroAuthor : author := mkAuthor "" "" [] 0 0.

Definition set_name (a : author) (v : string) : author :=
  mkAuthor v (nickname a) (emails a) (commits a) (geekrank a).
Definition set_nickname (a : author) (v : string) : author :=
  mkAuthor (name a) v (emails a) (commits a) (geekrank a).
Definition set_emails (a : author) (v : list string) : author :=
  mkAuthor (name a) (nickname a) v (commits a) (geekrank a).
Definition set_commits (a : author) (v : Z) : author :=
  mkAuthor (name a) (nickname a) (emails a) v (geekrank a).
Definition set_geekrank (a : author) (v : Z) : author :=
  mkAuthor (name a) (nickname a) (emails a) (commits a) v.

(** ** The roster parser: [getAuthors] *)

(** The body of the loop over the fields of a line. *)
Definition parseField (a : author) (field : string) : author :=
  match Re.nicknameRe field with
  | Some m1 => set_nickname a m1
  | None =>
      match Re.emailRe field with
      | Some m1 => set_emails a (emails a ++ [m1])%list
      | None =>
          if String.eqb (name a) "" then set_name a field
          else set_name a (name a ++ " " ++ field)
      end
  end.

Definition parseFields (fields : list string) : author :=
  fold_left parseField fields zeroAuthor.

Definition skipLine (line : string) : bool :=
  match line with
  | EmptyString => true
  | String c _ => Ascii.eqb c "#"
  end.

(** [getAuthors], from the content of the file. *)
Definition getAuthors (bs : string) : list author :=
  fold_left
    (fun authors line =>
       if skipLine line then authors
       else (authors ++ [parseFields (Str.Fields line)])%list)
    (Str.Split "010" bs) [].

(** ** The history reader: [allAuthors] *)

Definition stringSet := gset string.

(** [stringSetFromStrings]. *)
Definition stringSetFromStrings (ss : list string) : gset string :=
  foldl (fun s e => {[e]} ∪ s) ∅ ss.

(** The exclusion set of [main], from the content of the file named by
    [-exclude-commits] ([None] when the flag is not given). *)
Definition loadExclude (file : option string) : gset string :=
  match file with
  | Some hashes => stringSetFromStrings (Str.Split "010" hashes)
  | None => ∅
  end.

(** A map read in Go gives the zero value when the key is absent. *)
Definition getString (m : gmap string string) (k : string) : string :=
  default EmptyString (m !! k).

(** The body of the loop of [allAuthors] over the lines of the log. *)
Definition allAuthorsLine (exclude : gset string) (names : gmap string string)
    (line : string) : gmap string string :=
  match Str.SplitN " " line 3 with
  | [hash; email; name] =>
      if decide (hash ∈ exclude) then names
      else if String.eqb (getString names email) "" then <[email := name]> names
      else names
  | _ => names
  end.

Definition allAuthorsLines (exclude : gset string) (lines : list string)
  : gmap string string :=
  foldl (allAuthorsLine exclude) ∅ lines.

(** [allAuthors], from the output [bs] of [git log --format=%H %ae %an]. *)
Definition allAuthors (exclude : gset string) (bs : string) : gmap string string :=
  allAuthorsLines exclude (Str.Split "010" bs).

(** ** The identity reconciler (the first half of [main]) *)

Record recState := mkRec {
  authors : list author;
  listed : gset string;
  names : gmap string nat
}.

(** The first loop of [main]: the known emails and the name index. *)
Fixpoint indexRoster (i : nat) (l : list author)
    (listed : gset string) (names : gmap string nat)
  : gset string * gmap string nat :=
  match l with
  | [] => (listed, names)
  | a :: l' =>
      indexRoster (S i) l'
        (foldl (fun s e => {[e]} ∪ s) listed (emails a))
        (<[name a := i]> names)
  end.

Definition initRec (roster : list author) : recState :=
  let '(l, n) := indexRoster 0 roster ∅ ∅ in mkRec roster l n.

(** The body of the loop over [all].  An index out of range is a panic in
    Go: [None]. *)
Definition reconcileStep (st : recState) (entry : string * string)
  : option recState :=
  let '(email, name) := entry in
  let create :=
    let authors' := (authors st ++ [mkAuthor name "" [email] 0 0])%list in
    Some (mkRec authors'
                ({[email]} ∪ listed st)
                (<[name := (length authors' - 1)%nat]> (names st))) in
  if decide (email ∈ listed st) then Some st
  else
    match names st !! name with
    | Some i =>
        if negb (String.eqb name "") then
          match authors st !! i with
          | Some a =>
              Some (mkRec (<[i := set_emails a (emails a ++ [email])%list]> (authors st))
                          ({[email]} ∪ listed st)
                          (names st))
          | None => None
          end
        else create
    | None => create
    end.

Fixpoint reconcileLoop (st : recState) (entries : list (string * string))
  : option recState :=
  match entries with
  | [] => Some st
  | e :: es =>
      match reconcileStep st e with
      | Some st' => reconcileLoop st' es
      | None => None
      end
  end.

(** Go ranges over a map in an order it does not specify: [entries] is the
    order in which one run visits the pairs of [all]. *)
Definition rangeOrder (all : gmap string string) (entries : list (string * string))
  : Prop :=
  entries ≡ₚ map_to_list all.

(** Reconciliation of [roster] with the discovered identities, visited in
    the order [entries]. *)
Definition reconcile (roster : list author) (entries : list (string * string))
  : option (list author) :=
  authors <$> reconcileLoop (initRec roster) entries.

(** ** The contribution counter: [getContributions] *)

(** Go's [int] on a 64-bit platform: the integers, wrapped around. *)
Definition wrapInt (z : Z) : Z := (z + 2 ^ 63) mod 2 ^ 64 - 2 ^ 63.

Section Counter.

(** [intLog2 n] stands for [int(math.Log2(float64(n)))], a computation of
    Go's floating-point library; the counter is parametric in it. *)
Variable intLog2 : Z -> Z.

(** The loop that builds [emailIdx]: email to index, a later one wins. *)
Fixpoint emailIndex (i : nat) (l : list author) (idx : gmap string nat)
  : gmap string nat :=
  match l with
  | [] => idx
  | a :: l' => emailIndex (S i) l' (foldl (fun m e => <[e := i]> m) idx (emails a))
  end.

(** The body of the loop over the lines of the log: [authors[idx].commits++]. *)
Definition countLine (emailIdx : gmap string nat) (authors : list author)
    (line : string) : option (list author) :=
  match emailIdx !! line with
  | Some idx =>
      match authors !! idx with
      | Some a => Some (<[idx := set_commits a (wrapInt (commits a + 1))]> authors)
      | None => None
      end
  | None => Some authors
  end.

Fixpoint countLines (emailIdx : gmap string nat) (authors : list author)
    (lines : list string) : option (list author) :=
  match lines with
  | [] => Some authors
  | line :: lines' =>
      match countLine emailIdx authors line with
      | Some authors' => countLines emailIdx authors' lines'
      | None => None
      end
  end.

Definition rank (a : author) : author := set_geekrank a (intLog2 (commits a)).

(** [getContributions], from the output [buf] of
    [git log --pretty=format:%ae]. *)
Definition getContributions (buf : string) (authors : list author)
  : option (list author) :=
  map rank <$> countLines (emailIndex 0 authors ∅) authors (Str.Split "010" buf).

End Counter.

(** ** The git backend

    The two listings that the program asks of [git log], for a history
    given newest commit first. *)

Record commit := mkCommit {
  c_hash : string;
  c_email : string;
  c_name : string
}.

Definition LF : string := String "010" EmptyString.

(** [git log --format=%H %ae %an]: one terminated line per commit. *)
Definition gitLogFull (h : list commit) : string :=
  String.concat EmptyString
    (map (fun c => c_hash c ++ " " ++ c_email c ++ " " ++ c_name c ++ LF) h).

(** [git log --pretty=format:%ae]: the emails, separated by line feeds. *)
Definition gitLogEmails (h : list commit) : string :=
  String.concat LF (map c_email h).

(** ** The filter stage of [main] *)

(** The condition under which [main] removes [authors[i]]. *)
Definition removed (excludePattern : string) (minContributions : Z) (a : author)
  : bool :=
  Str.Contains (name a) excludePattern || (commits a <? minContributions).

(** The loop [for i := 0; i < len(authors); i++]: a removal is
    [append(authors[:i], authors[i+1:]...)] followed by [i--], so that the
    increment visits the same index again. *)
Equations? filterLoop (excludePattern : string) (minContributions : Z)
    (i : nat) (authors : list author) : list author
    by wf (length authors - i)%nat lt :=
  filterLoop excludePattern minContributions i authors with inspect (authors !! i) := {
    | exist _ None _ => authors
    | exist _ (Some a) _ =>
        if removed excludePattern minContributions a
        then filterLoop excludePattern minContributions i
               (take i authors ++ drop (S i) authors)%list
        else filterLoop excludePattern minContributions (S i) authors
  }.
Proof.
  - apply lookup_lt_Some in e. rewrite length_app, length_take, length_drop. lia.
  - apply lookup_lt_Some in e. lia.
Qed.

Definition filterStage (excludePattern : string) (minContributions : Z)
    (authors : list author) : list author :=
  filterLoop excludePattern minContributions 0 authors.

(** ** The sort stage of [main] *)

Module Sort.

(** What [sort.Sort] promises of its result for an ordering [less]: the
    same elements, in ascending order as determined by [less].  The sort
    is not stable, so the result is specified, not computed. *)
Definition sorts {A} (less : A -> A -> bool) (l out : list A) : Prop :=
  out ≡ₚ l ∧
  ∀ (i j : nat) (a b : A),
    (i < j)%nat → out !! i = Some a → out !! j = Some b → less b a = false.

(** [a] may stand before [b] in a sorted result. *)
Definition notAfter {A} (less : A -> A -> bool) (a b : A) : Prop :=
  less b a = false.

(** One sorting procedure, by insertion. *)
Fixpoint insert {A} (less : A -> A -> bool) (x : A) (l : list A) : list A :=
  match l with
  | [] => [x]
  | y :: l' => if less x y then x :: y :: l' else y :: insert less x l'
  end.

Definition insertionSort {A} (less : A -> A -> bool) (l : list A) : list A :=
  foldl (fun acc x => insert less x acc) [] l.

(** ASCII lower-casing, the action of [strings.ToLower] on ASCII text. *)
Definition lowerByte (a : ascii) : ascii :=
  let n := N_of_ascii a in
  if ((65 <=? n) && (n <=? 90))%N then ascii_of_N (n + 32) else a.

Fixpoint lowerAscii (s : string) : string :=
  match s with
  | EmptyString => EmptyString
  | String a s' => String (lowerByte a) (lowerAscii s')
  end.

End Sort.

Section SortStage.

(** [strings.ToLower], the Unicode lower-casing of Go's library. *)
Variable ToLower : string -> string.

(** [byName.Less], on the two elements it reads. *)
Definition byNameLess (a b : author) : bool :=
  String.ltb (ToLower (name a)) (ToLower (name b)).

(** [byGeekrank.Less]. *)
Definition byGeekrankLess (a b : author) : bool :=
  geekrank b <? geekrank a.

(** [sort.Sort(byName(authors))], then [sort.Sort(byGeekrank(authors))]
    when [-geekrank] is given. *)
Definition sortStage (geekrankFlag : bool) (l out : list author) : Prop :=
  ∃ mid, Sort.sorts byNameLess l mid ∧
         if geekrankFlag then Sort.sorts byGeekrankLess mid out else out = mid.

End SortStage.

(** ** The notions used in the statements *)

(** The authors that the filter stage does not remove. *)
Definition kept (excludePattern : string) (minContributions : Z) (a : author)
  : bool :=
  negb (removed excludePattern minContributions a).

(** The pure filter of the design notes: the subsequence of the authors
    with [commits >= min] whose name does not contain the pattern. *)
Definition pureFilter (pat : string) (min : Z) (l : list author) : list author :=
  List.filter (fun a => (min <=? commits a) && negb (Str.Contains (name a) pat)) l.

(** The record that [allAuthors] reads on a line: the email and the name,
    when the line splits into three fields and its hash is not excluded. *)
Definition record (exclude : gset string) (line : string)
  : option (string * string) :=
  match Str.SplitN " " line 3 with
  | [hash; email; name] =>
      if decide (hash ∈ exclude) then None else Some (email, name)
  | _ => None
  end.

(** The bytes of a string. *)
Definition bytes (s : string) : list ascii := list_ascii_of_string s.

(** No byte of [s] is in the class [\s] of the regular expressions. *)
Definition noSpace (s : string) : Prop :=
  Forall (fun a => Re.isSpace a = false) (bytes s).

(** A field is not empty and has no byte of the class [\s]. *)
Definition isField (f : string) : Prop := f ≠ "" ∧ noSpace f.

(** The nickname fields, the email fields and the plain fields of a line,
    by the order of the tests in [getAuthors]. *)
Definition nicknameOf (fields : list string) : string :=
  default "" (last (omap Re.nicknameRe fields)).

Definition emailGroup (field : string) : option string :=
  match Re.nicknameRe field with
  | Some _ => None
  | None => Re.emailRe field
  end.

Definition emailsOf (fields : list string) : list string :=
  omap emailGroup fields.

Definition isPlain (field : string) : bool :=
  match Re.nicknameRe field, Re.emailRe field with
  | None, None => true
  | _, _ => false
  end.

Definition nameOf (fields : list string) : string :=
  Str.Join " " (List.filter isPlain fields).

(** The shape that decides the class of a field: for each of the two
    patterns, the field matches with group [g] exactly when it reads
    [pre o g c post], where [o] is the opening byte, absent from [pre], and
    [c] the closing byte, absent from [post]. *)
Definition shaped (f : string) : Prop :=
  f ≠ ""
  ∧ (∀ g, Re.nicknameRe f = Some g
          ↔ ∃ pre post, f = pre ++ String "(" (g ++ String ")" post)
                        ∧ ("("%char ∉ bytes pre) ∧ (")"%char ∉ bytes post))
  ∧ (∀ g, Re.emailRe f = Some g
          ↔ ∃ pre post, f = pre ++ String "<" (g ++ String ">" post)
                        ∧ ("<"%char ∉ bytes pre) ∧ (">"%char ∉ bytes post)).

(** Every email of a roster, with its repetitions. *)
Definition allEmails (l : list author) : list string := l ≫= emails.

(** What the loop of [main] maintains: [listed] holds the emails of the
    authors, and [names] maps a name to the index of an author of that
    name. *)
Record recInv (st : recState) : Prop := mkRecInv {
  inv_listed : ∀ e, e ∈ listed st ↔ e ∈ allEmails (authors st);
  inv_names : ∀ n i, names st !! n = Some i →
                     ∃ a, authors st !! i = Some a ∧ name a = n
}.

(** The three ways through the body of the loop: the email is known, it is
    merged into the author that the name index gives, or a new author is
    appended. *)
Inductive stepCase (st : recState) (e n : string) (st' : recState) : Prop :=
| StepSkip :
    e ∈ listed st → st' = st → stepCase st e n st'
| StepMerge (i : nat) (a : author) :
    e ∉ listed st → n ≠ "" →
    names st !! n = Some i → authors st !! i = Some a →
    st' = mkRec (<[i := set_emails a (emails a ++ [e])]> (authors st))
                ({[e]} ∪ listed st) (names st) →
    stepCase st e n st'
| StepCreate :
    e ∉ listed st → names st !! n = None ∨ n = "" →
    st' = mkRec (authors st ++ [mkAuthor n "" [e] 0 0])
                ({[e]} ∪ listed st)
                (<[n := length (authors st)]> (names st)) →
    stepCase st e n st'.

(** The author at [i] is still [c], with more emails at most. *)
Definition grown (i : nat) (c : author) (st : recState) : Prop :=
  ∃ a, authors st !! i = Some a ∧ name a = name c ∧ nickname a = nickname c
       ∧ emails c `prefix_of` emails a.

(** Before the email [e2] of name [n] is visited. *)
Definition waiting (e2 n : string) (i : nat) (c : author) (st : recState) : Prop :=
  (e2 ∉ listed st) ∧ names st !! n = Some i ∧ grown i c st.

(** After the email [e2] has been visited. *)
Definition merged (e2 : string) (i : nat) (c : author) (st : recState) : Prop :=
  e2 ∈ listed st
  ∧ (∃ a, authors st !! i = Some a ∧ name a = name c
          ∧ nickname a = nickname c ∧ emails c `prefix_of` emails a
          ∧ e2 ∈ emails a)
  ∧ ∀ j b, authors st !! j = Some b → e2 ∈ emails b → j = i.

(** The identities that [main] discovers in this run. *)
Definition discovered (excludeHashes : option string) (history : list commit)
  : gmap string string :=
  allAuthors (loadExclude excludeHashes) (gitLogFull history).

(** [main] from the roster to the counter, for the order [entries] in which
    the map of discovered identities is visited: the roster file when
    [-read-authors] is given, reconciliation, then [getContributions] on the
    listing of the emails of the history. *)
Definition countedAuthors (intLog2 : Z -> Z) (authorsFile : option string)
    (history : list commit) (entries : list (string * string))
  : option (list author) :=
  let roster :=
    match authorsFile with
    | Some bs => getAuthors bs
    | None => []
    end in
  match reconcile roster entries with
  | Some authors => getContributions intLog2 (gitLogEmails history) authors
  | None => None
  end.

(** The counted authors that a run of [main] can reach, for the content of
    the roster file and of the exclusion file (when their flags are given)
    and the history of the repository. *)
Definition mainCounted (intLog2 : Z -> Z) (authorsFile excludeHashes : option string)
    (history : list commit) (res : list author) : Prop :=
  ∃ entries, rangeOrder (discovered excludeHashes history) entries
             ∧ countedAuthors intLog2 authorsFile history entries = Some res.

(** ** More of the source *)

(** [stringSet.add] and [stringSet.has]. *)
Definition stringSet_add (s : gset string) (e : string) : gset string :=
  {[e]} ∪ s.

Definition stringSet_has (s : gset string) (e : string) : bool :=
  bool_decide (e ∈ s).

(** The author [c'] is the author [c] with, at most, more emails at the
    end. *)
Definition extended (c c' : author) : Prop :=
  name c' = name c ∧ nickname c' = nickname c ∧ commits c' = commits c
  ∧ geekrank c' = geekrank c ∧ emails c `prefix_of` emails c'.

(** The authors of [st] begin with the authors of [roster], extended. *)
Definition keepsRoster (roster : list author) (st : recState) : Prop :=
  (length roster <= length (authors st))%nat
  ∧ ∀ i c, roster !! i = Some c →
           ∃ c', authors st !! i = Some c' ∧ extended c c'.

(** Every discovered email of a non-empty name that the roster did not list
    and that is listed by now is in the emails of the author that the name
    index gives for its name. *)
Definition grouped (all : gmap string string) (roster : list author)
    (st : recState) : Prop :=
  ∀ e n, all !! e = Some n → n ≠ "" → e ∉ allEmails roster → e ∈ listed st →
         ∃ i a, names st !! n = Some i ∧ authors st !! i = Some a ∧ e ∈ emails a.

(** The name index knows the name of every author. *)
Definition namesCover (st : recState) : Prop :=
  ∀ a, a ∈ authors st → is_Some (names st !! name a).

(** From the index [L] on, an author of a non-empty name is the only author
    of that name. *)
Definition freshNames (L : nat) (l : list author) : Prop :=
  ∀ j k a b, (L <= j)%nat → l !! j = Some a → l !! k = Some b →
             name b = name a → name a ≠ "" → k = j.

(** The number of lines of the log that the index [emailIdx] credits to the
    author at [i]. *)
Definition credited (emailIdx : gmap string nat) (i : nat) (lines : list string)
  : nat :=
  length (filter (fun line => emailIdx !! line = Some i) lines).

(** ** The render views of [main] *)

(** [strings.ReplaceAll(s, " ", "")]. *)
Fixpoint removeSpaces (s : string) : string :=
  match s with
  | EmptyString => EmptyString
  | String a s' =>
      if Ascii.eqb a " " then removeSpaces s' else String a (removeSpaces s')
  end.

Section Render.

(** [strings.EqualFold], the equality under Unicode case folding of Go's
    library. *)
Variable EqualFold : string -> string -> bool.

(** [author.hasNickName]. *)
Definition hasNickName (a : author) : bool :=
  if String.eqb (nickname a) "" then false
  else if EqualFold (removeSpaces (name a)) (nickname a) then false
  else true.

(** [author.displayName]. *)
Definition displayName (a : author) : string :=
  if hasNickName a then name a ++ " (" ++ nickname a ++ ")" else name a.

(** What [-names] prints: the display names on one line. *)
Definition printNames (authors : list author) : string :=
  Str.Join ", " (map displayName authors) ++ LF.

(** What [-authors] prints for one author: the display name, then every
    email in angle brackets, then the end of the line. *)
Definition authorText (a : author) : string :=
  displayName a
  ++ String.concat EmptyString (map (fun email => " <" ++ email ++ ">") (emails a)).

Definition authorLine (a : author) : string := authorText a ++ LF.

(** What [-authors] prints. *)
Definition printAuthors (authors : list author) : string :=
  String.concat EmptyString (map authorLine authors).

End Render.

(** No white-space rune of [unicode.IsSpace] starts in [s]. *)
Fixpoint noWhite (s : string) : bool :=
  match s with
  | EmptyString => true
  | String _ s' => Nat.eqb (Str.spaceWidth s) 0 && noWhite s'
  end.

(** A word of a name: not empty, without white space, and matched by
    neither pattern of the roster format. *)
Definition plainWord (w : string) : Prop :=
  w ≠ "" ∧ noWhite w = true ∧ Re.nicknameRe w = None ∧ Re.emailRe w = None.

(** An author that the roster format can carry: the name is made of plain
    words joined by single spaces, the first of which does not start a
    comment; the nickname has no white space; an email has no white space
    and no parenthesised group. *)
Definition printable (a : author) : Prop :=
  (∃ w ws, name a = Str.Join " " (w :: ws) ∧ Forall plainWord (w :: ws)
           ∧ skipLine w = false)
  ∧ noWhite (nickname a) = true
  ∧ Forall (fun e => noWhite e = true ∧ Re.nicknameRe e = None) (emails a).

(** The field that [strings.Fields] gives for the bytes read so far. *)
Definition flush (cur : list ascii) : list string :=
  match cur with
  | [] => []
  | _ => [string_of_list_ascii (rev cur)]
  end.

(** The fields of the line that [-authors] prints for an author whose name
    is made of the words [ws]. *)
Definition tokens (nick : option string) (ws : list string) (es : list string)
  : list string :=
  let nickTokens :=
    match nick with
    | Some k => [String "(" (k ++ ")")]
    | None => []
    end in
  let emailTokens := map (fun e => String "<" (e ++ ">")) es in
  (ws ++ nickTokens ++ emailTokens)%list.

(** The email [e] is in the emails of at most one Contributor of [l]. *)
Definition notInTwo (e : string) (l : list author) : Prop :=
  ∀ i j a b, l !! i = Some a → l !! j = Some b →
             e ∈ emails a → e ∈ emails b → i = j.

(** The email [e] is in the emails of exactly one Contributor of [l]. *)
Definition inOne (e : string) (l : list author) : Prop :=
  ∃ i a, l !! i = Some a ∧ e ∈ emails a
         ∧ ∀ j b, l !! j = Some b → e ∈ emails b → j = i.

(** ** The geekrank in Go's arithmetic

    [int(math.Log2(float64(commits)))] on binary64 floats.  [Log2], [Log]
    and [Frexp] follow the portable implementations of Go's [math] package
    ([log10.go], [log.go], [frexp.go]), evaluated operation by operation
    without fused multiply-add; their constants are given by their bits. *)
Module Go.

(** The conversion [float64(n)] of an [int]: the nearest float. *)
Definition float64 (n : Z) : float :=
  FloatOps.SF2Prim (SpecFloat.binary_normalize FloatOps.prec FloatOps.emax n 0 false).

(** The conversion [int(f)] of a float: the fraction is discarded; when
    the value does not fit (it is too large, an infinity or not a number),
    Go leaves the result to the implementation: [indefinite f]. *)
Definition int (indefinite : float -> Z) (f : float) : Z :=
  match FloatOps.Prim2SF f with
  | SpecFloat.S754_zero _ => 0
  | SpecFloat.S754_finite s m e =>
      let mag := if 0 <=? e then Z.shiftl (Zpos m) e else Z.shiftr (Zpos m) (- e) in
      let v := if s then - mag else mag in
      if (- 2 ^ 63 <=? v) && (v <? 2 ^ 63) then v else indefinite f
  | _ => indefinite f
  end.

(** [math.Frexp]: [f = frac * 2^exp] with [frac] in [[1/2, 1)]. *)
Definition Frexp (f : float) : float * Z :=
  if (f =? 0)%float then (f, 0)
  else if is_infinity f || is_nan f then (f, 0)
  else FloatOps.Z.frexp f.

Definition Ln2Hi : float := 0x1.62e42fee00000p-1%float.
Definition Ln2Lo : float := 0x1.a39ef35793c76p-33%float.
Definition L1 : float := 0x1.5555555555593p-1%float.
Definition L2 : float := 0x1.999999997fa04p-2%float.
Definition L3 : float := 0x1.2492494229359p-2%float.
Definition L4 : float := 0x1.c71c51d8e78afp-3%float.
Definition L5 : float := 0x1.7466496cb03dep-3%float.
Definition L6 : float := 0x1.39a09d078c69fp-3%float.
Definition L7 : float := 0x1.2f112df3e5244p-3%float.

(** The constants [Sqrt2/2] and [1/Ln2], rounded to binary64. *)
Definition halfSqrt2 : float := 0x1.6a09e667f3bcdp-1%float.
Definition invLn2 : float := 0x1.71547652b82fep+0%float.

(** [math.Log]. *)
Definition Log (x : float) : float :=
  if is_nan x || (x =? infinity)%float then x
  else if (x <? 0)%float then nan
  else if (x =? 0)%float then neg_infinity
  else
    let '(f1, ki) := Frexp x in
    let '(f1, ki) :=
      if (f1 <? halfSqrt2)%float then ((f1 * 2)%float, ki - 1) else (f1, ki) in
    let f := (f1 - 1)%float in
    let k := float64 ki in
    let s := (f / (2 + f))%float in
    let s2 := (s * s)%float in
    let s4 := (s2 * s2)%float in
    let t1 := (s2 * (L1 + s4 * (L3 + s4 * (L5 + s4 * L7))))%float in
    let t2 := (s4 * (L2 + s4 * (L4 + s4 * L6)))%float in
    let R := (t1 + t2)%float in
    let hfsq := (0.5 * f * f)%float in
    (k * Ln2Hi - ((hfsq - (s * (hfsq + R) + k * Ln2Lo)) - f))%float.

(** [math.Log2]: exact on the powers of two. *)
Definition Log2 (x : float) : float :=
  let '(frac, exp) := Frexp x in
  if (frac =? 0.5)%float then float64 (exp - 1)
  else (Log frac * invLn2 + float64 exp)%float.

(** The rank that [getContributions] computes from the commits. *)
Definition intLog2 (indefinite : float -> Z) (commits : Z) : Z :=
  int indefinite (Log2 (float64 commits)).

(** A check of [f] on [fuel] integers from [n] on. *)
Fixpoint upto (fuel : nat) (n : Z) (f : Z -> bool) : bool :=
  match fuel with
  | O => true
  | S k => f n && upto k (n + 1) f
  end.

End Go.

(** ** The methods of [byName] and [byGeekrank] that move the elements *)





(** * Properties *)

(** ** The embedding at work *)

Example getAuthors_ex :
  getAuthors
    ("# comment" ++ String "010" "Bob Smith (Bobby) <bob@x.com> <b2@x.com>"
       ++ String "010" "")
  = [mkAuthor "Bob Smith" "Bobby" ["bob@x.com"; "b2@x.com"] 0 0].
Proof. vm_compute. reflexivity. Qed.

Example reconcile_ex :
  reconcile (getAuthors "Bob (Bobby) <bob@x.com>")
            [("other@x.com", "Bob"); ("new@x.com", "Eve"); ("bob@x.com", "Robert")]
  = Some [mkAuthor "Bob" "Bobby" ["bob@x.com"; "other@x.com"] 0 0;
          mkAuthor "Eve" "" ["new@x.com"] 0 0].
Proof. vm_compute. reflexivity. Qed.

Example allAuthors_ex :
  map_to_list (allAuthors {["h2"]}
     ("h1 a@x.com Alice A" ++ String "010" "h2 b@x.com Bob" ++ String "010"
        "h3 a@x.com Other" ++ String "010" ""))
  = [("a@x.com", "Alice A")].
Proof. vm_compute. reflexivity. Qed.

Example filterStage_ex :
  filterStage "[bot]" 1
    [mkAuthor "dep[bot]" "" [] 5 2; mkAuthor "Al" "" [] 0 0; mkAuthor "Bo" "" [] 1 0;
     mkAuthor "x[bot]y" "" [] 9 3]
  = [mkAuthor "Bo" "" [] 1 0].
Proof. vm_compute. reflexivity. Qed.

(** ** Strings *)

Lemma append_nil_r (s : string) : s ++ "" = s.
Proof. induction s as [|a s IH]; simpl; [done | by rewrite IH]. Qed.

Lemma append_assoc (s t u : string) : (s ++ t) ++ u = s ++ t ++ u.
Proof. induction s as [|a s IH]; simpl; [done | by rewrite IH]. Qed.

Lemma prefix_spec (sub s : string) :
  String.prefix sub s = true ↔ ∃ post, s = sub ++ post.
Proof.
  revert s. induction sub as [|a sub IH]; intros s.
  - destruct s; simpl; split; eauto.
  - destruct s as [|b s]; simpl.
    + split; [done | intros [post H]; discriminate].
    + destruct (ascii_dec a b) as [->|Hne].
      * rewrite IH. split; intros [post H]; exists post; congruence.
      * split; [done | intros [post H]; congruence].
Qed.

Lemma Contains_nil (sub : string) :
  Str.Contains "" sub = String.prefix sub "" || false.
Proof. reflexivity. Qed.

Lemma Contains_cons (a : ascii) (s sub : string) :
  Str.Contains (String a s) sub = String.prefix sub (String a s) || Str.Contains s sub.
Proof. reflexivity. Qed.

(** [strings.Contains] is the substring relation. *)
Lemma Contains_spec (s sub : string) :
  Str.Contains s sub = true ↔ ∃ pre post, s = pre ++ sub ++ post.
Proof.
  induction s as [|a s IH].
  - rewrite Contains_nil, orb_false_r, prefix_spec. split.
    + intros [post H]. by exists "", post.
    + intros [pre [post H]].
      destruct pre; [by exists post | discriminate].
  - rewrite Contains_cons, orb_true_iff, IH, prefix_spec. split.
    + intros [[post H] | (pre & post & H)].
      * by exists "", post.
      * exists (String a pre), post. simpl. by rewrite H.
    + intros (pre & post & H). destruct pre as [|b pre].
      * left. by exists post.
      * right. exists pre, post. simpl in H. congruence.
Qed.

(** ** The filter stage *)

(** The loop at index [i] leaves the authors before [i] and keeps, of the
    others, those that are not removed. *)
Lemma filterLoop_spec (pat : string) (min : Z) (i : nat) (l : list author) :
  filterLoop pat min i l
  = (take i l ++ List.filter (kept pat min) (drop i l))%list.
Proof.
  funelim (filterLoop pat min i l); clear Heqcall.
  - pose proof (lookup_lt_Some _ _ _ e) as Hlt.
    rewrite (drop_S _ _ _ e). cbn [List.filter].
    replace (kept excludePattern minContributions a)
      with (negb (removed excludePattern minContributions a)) by reflexivity.
    destruct (removed excludePattern minContributions a) eqn:Hr; simpl.
    + rewrite H. rewrite take_app_le by (rewrite length_take; lia).
      rewrite take_take, Nat.min_id.
      rewrite drop_app_ge by (rewrite length_take; lia).
      rewrite length_take, Nat.min_l by lia. by rewrite Nat.sub_diag.
    + rewrite H0. rewrite (take_S_r _ _ _ e), <- app_assoc. done.
  - pose proof (lookup_ge_None_1 _ _ e) as Hge.
    rewrite take_ge, drop_ge by lia. simpl. by rewrite app_nil_r.
Qed.

Lemma filterStage_filter (pat : string) (min : Z) (l : list author) :
  filterStage pat min l = List.filter (kept pat min) l.
Proof. unfold filterStage. by rewrite filterLoop_spec, take_0, drop_0. Qed.

Lemma kept_spec (pat : string) (min : Z) (a : author) :
  kept pat min a = true
  ↔ min <= commits a ∧ ¬ ∃ pre post, name a = pre ++ pat ++ post.
Proof.
  unfold kept, removed. rewrite negb_true_iff, orb_false_iff.
  rewrite Z.ltb_ge, <- Contains_spec, not_true_iff_false. tauto.
Qed.

(** C7. After the filter stage, a Contributor is in the working set exactly
    when it was there before, has [commits >= min] and a name that does not
    contain the exclude pattern as a substring: every remaining Contributor
    satisfies both conditions and every violating one has been removed. *)
Theorem filterStage_membership (pat : string) (min : Z) (l : list author)
    (a : author) :
  a ∈ filterStage pat min l
  ↔ a ∈ l ∧ min <= commits a ∧ ¬ ∃ pre post, name a = pre ++ pat ++ post.
Proof.
  rewrite filterStage_filter, !list_elem_of_In, filter_In, kept_spec. tauto.
Qed.

(** C10. The remove-while-scanning loop of [main] computes the pure filter:
    it yields exactly the authors that satisfy the keep predicate, as they
    were (the same records), in their original relative order. *)
Theorem filterStage_pureFilter (pat : string) (min : Z) (l : list author) :
  filterStage pat min l = pureFilter pat min l
  ∧ sublist (filterStage pat min l) l.
Proof.
  assert (Heq : filterStage pat min l = pureFilter pat min l).
  { rewrite filterStage_filter. unfold pureFilter.
    apply filter_ext. intros a. unfold kept, removed.
    rewrite negb_orb, andb_comm. f_equal. symmetry. apply Z.leb_antisym. }
  split; [exact Heq |].
  rewrite Heq. unfold pureFilter. clear Heq.
  induction l as [|a l IH]; simpl; [constructor |].
  destruct (_ && _); by constructor.
Qed.

(** ** The sort stage *)

Section InsertionSort.

Context {A : Type} (less : A -> A -> bool).

(** [less] is a strict weak ordering, as [sort.Interface] asks. *)
Hypothesis less_asym : ∀ x y, less x y = true → less y x = false.
Hypothesis less_negtrans :
  ∀ x y z, less y x = false → less z y = false → less z x = false.

Lemma insert_perm (x : A) (l : list A) : Sort.insert less x l ≡ₚ x :: l.
Proof.
  induction l as [|y l IH]; simpl; [done |].
  destruct (less x y); [done |].
  rewrite IH. apply Permutation_swap.
Qed.

Lemma insert_sorted (x : A) (l : list A) :
  StronglySorted (Sort.notAfter less) l → StronglySorted (Sort.notAfter less) (Sort.insert less x l).
Proof.
  induction 1 as [|y l Hs IH Hall]; simpl.
  - repeat constructor.
  - destruct (less x y) eqn:Hxy.
    + constructor; [by constructor |].
      constructor; [by apply less_asym |].
      eapply Forall_impl; [exact Hall |].
      intros z Hz. unfold Sort.notAfter in *. eapply less_negtrans; [| exact Hz].
      by apply less_asym.
    + constructor; [exact IH |].
      rewrite (Forall_forall (Sort.notAfter less y)). intros z Hz.
      rewrite insert_perm in Hz.
      apply elem_of_cons in Hz as [-> | Hz]; [exact Hxy |].
      rewrite Forall_forall in Hall. by apply Hall.
Qed.

Lemma sorted_lookup (l : list A) (i j : nat) (a b : A) :
  StronglySorted (Sort.notAfter less) l → (i < j)%nat →
  l !! i = Some a → l !! j = Some b → less b a = false.
Proof.
  intros Hs. revert i j. induction Hs as [|y l Hs IH Hall]; intros i j Hij Hi Hj.
  - discriminate.
  - destruct j as [|j]; [lia |]. destruct i as [|i]; simpl in *.
    + injection Hi as ->. rewrite Forall_forall in Hall.
      apply Hall, list_elem_of_lookup. eauto.
    + apply (IH i j); [lia | done | done].
Qed.

(** Sorting by insertion meets the promise of [sort.Sort]. *)
Lemma insertionSort_sorts (l : list A) :
  Sort.sorts less l (Sort.insertionSort less l).
Proof.
  unfold Sort.insertionSort.
  assert (H : ∀ acc, StronglySorted (Sort.notAfter less) acc →
            foldl (fun acc x => Sort.insert less x acc) acc l ≡ₚ (acc ++ l)%list
            ∧ StronglySorted (Sort.notAfter less) (foldl (fun acc x => Sort.insert less x acc) acc l)).
  { induction l as [|x l IH]; intros acc Hacc; simpl.
    - by rewrite app_nil_r.
    - destruct (IH (Sort.insert less x acc)) as [Hp Hs]; [by apply insert_sorted |].
      split; [| exact Hs].
      rewrite Hp, insert_perm. simpl. apply Permutation_middle. }
  destruct (H []) as [Hp Hs]; [constructor |].
  split; [exact Hp |].
  intros i j a b. by apply sorted_lookup.
Qed.

End InsertionSort.

Lemma string_ltb_leb (s t : string) : String.ltb s t = negb (String.leb t s).
Proof.
  unfold String.ltb, String.leb. rewrite (String.compare_antisym s t).
  by destruct (String.compare t s).
Qed.

Section SortStageProps.

Variable ToLower : string -> string.

Lemma byNameLess_asym (x y : author) :
  byNameLess ToLower x y = true → byNameLess ToLower y x = false.
Proof.
  unfold byNameLess. unfold String.ltb.
  rewrite (String.compare_antisym (ToLower (name y))).
  by destruct (String.compare (ToLower (name x)) (ToLower (name y))).
Qed.

Lemma byNameLess_negtrans (x y z : author) :
  byNameLess ToLower y x = false → byNameLess ToLower z y = false →
  byNameLess ToLower z x = false.
Proof.
  unfold byNameLess. rewrite !string_ltb_leb, !negb_false_iff.
  intros H1 H2. apply Is_true_true. apply Is_true_true in H1, H2.
  exact (transitivity (R := String.le) H1 H2).
Qed.

(** The sort stage always has a result: sorting by insertion gives one. *)
Lemma sortStage_name_exists (l : list author) :
  sortStage ToLower false l (Sort.insertionSort (byNameLess ToLower) l).
Proof.
  eexists. split; [| reflexivity].
  apply insertionSort_sorts; [apply byNameLess_asym | apply byNameLess_negtrans].
Qed.

(** C8. In name-sort mode (no [-geekrank]), for every adjacent pair
    [(A, B)] of the sorted sequence, the lower-cased name of [A] is less
    than or equal to the lower-cased name of [B], whatever the filtered
    list and whatever result [sort.Sort] picks among equal names. *)
Theorem sortStage_name_adjacent (l out : list author) (i : nat) (a b : author) :
  sortStage ToLower false l out →
  out !! i = Some a → out !! S i = Some b →
  String.leb (ToLower (name a)) (ToLower (name b)) = true.
Proof.
  intros (mid & [_ Hs] & ->) Ha Hb.
  specialize (Hs i (S i) a b (Nat.lt_succ_diag_r i) Ha Hb).
  unfold byNameLess in Hs. rewrite string_ltb_leb in Hs.
  by apply negb_false_iff in Hs.
Qed.

End SortStageProps.

Lemma sortStage_name_adjacent_witness :
  String.leb (Sort.lowerAscii "Alice") (Sort.lowerAscii "bob") = true.
Proof.
  apply (sortStage_name_adjacent Sort.lowerAscii
           [mkAuthor "bob" "" [] 3 1; mkAuthor "Alice" "" [] 2 1;
            mkAuthor "Carol" "" [] 1 0]
           (Sort.insertionSort (byNameLess Sort.lowerAscii)
              [mkAuthor "bob" "" [] 3 1; mkAuthor "Alice" "" [] 2 1;
               mkAuthor "Carol" "" [] 1 0])
           0 (mkAuthor "Alice" "" [] 2 1) (mkAuthor "bob" "" [] 3 1)).
  - apply sortStage_name_exists.
  - reflexivity.
  - reflexivity.
Defined.

(** ** The history reader *)

Lemma allAuthorsLine_record (exclude : gset string) (names : gmap string string)
    (line : string) :
  allAuthorsLine exclude names line
  = match record exclude line with
    | Some (email, name) =>
        if String.eqb (getString names email) "" then <[email := name]> names
        else names
    | None => names
    end.
Proof.
  unfold allAuthorsLine, record.
  destruct (Str.SplitN " " line 3) as [|h [|e [|n [|x fs]]]]; try done.
  by destruct (decide (h ∈ exclude)).
Qed.

Section AllAuthors.

Variable exclude : gset string.

(** A non-empty name, once recorded, stays. *)
Lemma allAuthorsLine_keep (names : gmap string string) (line e n : string) :
  names !! e = Some n → n ≠ "" →
  allAuthorsLine exclude names line !! e = Some n.
Proof.
  intros He Hn. rewrite allAuthorsLine_record.
  destruct (record exclude line) as [[e' n']|]; [| done].
  destruct (String.eqb_spec (getString names e') "") as [Hemp|]; [| done].
  destruct (decide (e' = e)) as [->|Hne]; [| by rewrite lookup_insert_ne].
  unfold getString in Hemp. rewrite He in Hemp. simpl in Hemp. congruence.
Qed.

Lemma allAuthorsLines_keep (lines : list string) (names : gmap string string)
    (e n : string) :
  names !! e = Some n → n ≠ "" →
  foldl (allAuthorsLine exclude) names lines !! e = Some n.
Proof.
  revert names. induction lines as [|l lines IH]; intros names He Hn; simpl.
  - done.
  - apply IH; [| done]. by apply allAuthorsLine_keep.
Qed.

(** As long as the records of an email carry empty names, the name read
    for that email is empty. *)
Lemma allAuthorsLine_empty (names : gmap string string) (line e : string) :
  getString names e = "" →
  (∀ n', record exclude line = Some (e, n') → n' = "") →
  getString (allAuthorsLine exclude names line) e = "".
Proof.
  intros He Hall. rewrite allAuthorsLine_record.
  destruct (record exclude line) as [[e' n']|]; [| done].
  destruct (String.eqb_spec (getString names e') "") as [Hemp|]; [| done].
  destruct (decide (e' = e)) as [->|Hne].
  - unfold getString. rewrite lookup_insert_eq. simpl. by apply Hall.
  - unfold getString. by rewrite lookup_insert_ne.
Qed.

Lemma allAuthorsLines_empty (lines : list string) (names : gmap string string)
    (e : string) :
  getString names e = "" →
  (∀ l n', l ∈ lines → record exclude l = Some (e, n') → n' = "") →
  getString (foldl (allAuthorsLine exclude) names lines) e = "".
Proof.
  revert names. induction lines as [|l lines IH]; intros names He Hall; simpl.
  - done.
  - apply IH.
    + apply allAuthorsLine_empty; [done |].
      intros n'. apply Hall. by left.
    + intros l' n' Hin. apply Hall. by right.
Qed.

(** C5, as amended. The name associated with an email is the name of the
    first-encountered accepted record bearing that email whose name is not
    empty: a record with an empty name that comes earlier does not win. *)
Theorem allAuthors_first_nonempty_name (bs : string) (pre post : list string)
    (line e n : string) :
  Str.Split "010" bs = (pre ++ line :: post)%list →
  record exclude line = Some (e, n) → n ≠ "" →
  (∀ l n', l ∈ pre → record exclude l = Some (e, n') → n' = "") →
  allAuthors exclude bs !! e = Some n.
Proof.
  intros Hsplit Hrec Hn Hpre.
  unfold allAuthors, allAuthorsLines. rewrite Hsplit, foldl_app. simpl.
  apply allAuthorsLines_keep; [| done].
  rewrite allAuthorsLine_record, Hrec.
  rewrite (allAuthorsLines_empty pre ∅ e); [| done | done].
  simpl. apply lookup_insert_eq.
Qed.

End AllAuthors.

Lemma allAuthors_first_nonempty_name_witness :
  allAuthors ∅ ("h1 e@x " ++ LF ++ "h2 e@x Bob" ++ LF ++ "h3 e@x Carl") !! "e@x"
  = Some "Bob".
Proof.
  apply (allAuthors_first_nonempty_name ∅ _ ["h1 e@x "] ["h3 e@x Carl"] "h2 e@x Bob").
  - reflexivity.
  - reflexivity.
  - discriminate.
  - intros l n' Hl Hrec. apply list_elem_of_singleton in Hl as ->.
    vm_compute in Hrec. congruence.
Defined.

(** C5, as stated, fails: the first record of [e@x] has the empty name, the
    second has the name [Bob], and the name associated with [e@x] is [Bob],
    not the empty name of the first-encountered record. *)
Lemma allAuthors_first_name_overwritten :
  map (record ∅) (Str.Split "010" ("h1 e@x " ++ LF ++ "h2 e@x Bob"))
  = [Some ("e@x", ""); Some ("e@x", "Bob")]
  ∧ allAuthors ∅ ("h1 e@x " ++ LF ++ "h2 e@x Bob") !! "e@x" = Some "Bob"
  ∧ allAuthors ∅ ("h1 e@x " ++ LF ++ "h2 e@x Bob") !! "e@x" ≠ Some "".
Proof. split; [| split]; [vm_compute; reflexivity .. | vm_compute; discriminate]. Qed.

(** ** The roster parser *)

Lemma bytes_app (s t : string) : bytes (s ++ t) = (bytes s ++ bytes t)%list.
Proof. induction s as [|a s IH]; simpl; [done | by rewrite IH]. Qed.

Section Regexp.

Variable c : ascii.

Lemma greedy_None_absent (s : string) : c ∉ bytes s → Re.greedy c s = None.
Proof.
  induction s as [|a s IH]; simpl; [done |].
  intros Hnot. apply not_elem_of_cons in Hnot as [Hne Hnot].
  rewrite (IH Hnot).
  destruct (Ascii.eqb_spec a c) as [->|_]; [done |].
  by destruct (Re.isSpace a).
Qed.

Lemma greedy_None (s : string) :
  noSpace s → Re.greedy c s = None → c ∉ bytes s.
Proof.
  induction s as [|a s IH]; simpl; intros Hsp Hg.
  - apply not_elem_of_nil.
  - apply Forall_cons in Hsp as [Ha Hsp]. rewrite Ha in Hg.
    destruct (Re.greedy c s) as [g|] eqn:Hgs; [done |].
    destruct (Ascii.eqb_spec a c) as [->|Hne]; [done |].
    apply not_elem_of_cons. split; [congruence | by apply IH].
Qed.

(** On a string free of [\s], the greedy run followed by [c] captures
    everything before the last [c]. *)
Lemma greedy_Some (s g : string) :
  noSpace s →
  Re.greedy c s = Some g ↔ ∃ post, s = g ++ String c post ∧ c ∉ bytes post.
Proof.
  revert g. induction s as [|a s IH]; intros g Hsp; simpl.
  - split; [done |]. intros (post & H & _). by destruct g.
  - apply Forall_cons in Hsp as [Ha Hsp]. rewrite Ha.
    destruct (Re.greedy c s) as [g'|] eqn:Hgs.
    + pose proof (proj1 (IH g' Hsp) eq_refl) as (post' & Hs & Hpost').
      split.
      * intros [= <-]. exists post'. simpl. by rewrite Hs.
      * intros (post & H & Hpost). destruct g as [|b g]; simpl in H.
        -- injection H as -> <-. exfalso. apply Hpost.
           rewrite Hs, bytes_app. apply elem_of_app. right. by left.
        -- injection H as -> H. f_equal. f_equal.
           assert (Hg : Some g' = Some g).
           { apply IH; [done |]. by exists post. }
           congruence.
    + pose proof (greedy_None s Hsp Hgs) as Habs.
      destruct (Ascii.eqb_spec a c) as [->|Hne].
      * split.
        -- intros [= <-]. by exists s.
        -- intros (post & H & Hpost). destruct g as [|b g]; [done |].
           simpl in H. injection H as -> H. exfalso. apply Habs.
           rewrite H, bytes_app. apply elem_of_app. right. by left.
      * split; [done |].
        intros (post & H & Hpost). destruct g as [|b g]; simpl in H.
        -- congruence.
        -- injection H as -> H. exfalso. apply Habs.
           rewrite H, bytes_app. apply elem_of_app. right. by left.
Qed.

Variable o : ascii.

(** On a field free of [\s], the pattern matches when the field has the
    byte [o] and later the byte [c]; the group is what stands between the
    first [o] and the last [c]. *)
Lemma find_Some (s g : string) :
  noSpace s →
  Re.find o c s = Some g
  ↔ ∃ pre post, s = pre ++ String o (g ++ String c post)
                ∧ (o ∉ bytes pre) ∧ (c ∉ bytes post).
Proof.
  intros Hsp. induction s as [|a s IH]; simpl.
  - split; [done |]. intros (pre & post & H & _). by destruct pre.
  - apply Forall_cons in Hsp as [Ha Hsp]. specialize (IH Hsp).
    destruct (Ascii.eqb_spec a o) as [->|Hne].
    + destruct (Re.greedy c s) as [g'|] eqn:Hgs.
      * rewrite <- Hgs, (greedy_Some s g Hsp). split.
        -- intros (post & -> & Hpost). exists "", post.
           split; [done |]. split; [apply not_elem_of_nil | done].
        -- intros (pre & post & H & Hpre & Hpost).
           destruct pre as [|b pre]; simpl in H.
           ++ injection H as ->. by exists post.
           ++ injection H as -> _. exfalso. apply Hpre. by left.
      * pose proof (greedy_None s Hsp Hgs) as Habs.
        rewrite IH. split.
        -- intros (pre & post & -> & _). exfalso. apply Habs.
           rewrite !bytes_app. apply elem_of_app. right. simpl. right.
           rewrite bytes_app. apply elem_of_app. right. by left.
        -- intros (pre & post & H & Hpre & Hpost).
           destruct pre as [|b pre]; simpl in H.
           ++ injection H as ->. exfalso. apply Habs.
              rewrite bytes_app. apply elem_of_app. right. by left.
           ++ injection H as -> _. exfalso. apply Hpre. by left.
    + rewrite IH. split.
      * intros (pre & post & -> & Hpre & Hpost). exists (String a pre), post.
        split; [done |]. split; [| done].
        simpl. apply not_elem_of_cons. split; [congruence | done].
      * intros (pre & post & H & Hpre & Hpost).
        destruct pre as [|b pre]; simpl in H.
        -- congruence.
        -- injection H as -> ->. exists pre, post. split; [done |].
           split; [| done]. simpl in Hpre. by apply not_elem_of_cons in Hpre as [_ ?].
Qed.

End Regexp.

(** *** The fields of a line *)

Lemma reSpace_asciiSpace (a : ascii) :
  Str.isAsciiSpace a = false → Re.isSpace a = false.
Proof. destruct a as [[] [] [] [] [] [] [] []]; vm_compute; congruence. Qed.

Lemma spaceWidth_0 (a : ascii) (s : string) :
  Str.spaceWidth (String a s) = 0%nat → Re.isSpace a = false.
Proof.
  intros H. apply reSpace_asciiSpace. unfold Str.spaceWidth in H.
  by destruct (Str.isAsciiSpace a).
Qed.

Lemma bytes_of_list (l : list ascii) : bytes (string_of_list_ascii l) = l.
Proof. apply list_ascii_of_string_of_list_ascii. Qed.

Lemma flush_isField (cur : list ascii) :
  Forall (fun a => Re.isSpace a = false) cur →
  Forall isField match cur with
                 | [] => []
                 | _ => [string_of_list_ascii (rev cur)]
                 end.
Proof.
  intros Hcur. destruct cur as [|a cur]; [constructor |].
  constructor; [| constructor]. split.
  - intros H. apply (f_equal bytes) in H. rewrite bytes_of_list in H.
    simpl in H. by apply app_nil in H as [_ ?].
  - unfold noSpace. rewrite bytes_of_list. by apply Forall_rev.
Qed.

Lemma fieldsAux_isField (s : string) (skip : nat) (cur : list ascii) :
  Forall (fun a => Re.isSpace a = false) cur →
  Forall isField (Str.fieldsAux skip cur s).
Proof.
  revert skip cur. induction s as [|a s IH]; intros skip cur Hcur.
  - apply (flush_isField cur Hcur).
  - cbn [Str.fieldsAux]. destruct skip as [|k]; [| by apply IH].
    destruct (Str.spaceWidth (String a s)) as [|k] eqn:Hw.
    + apply IH. constructor; [| done]. by apply spaceWidth_0 in Hw.
    + apply Forall_app. split; [apply (flush_isField cur Hcur) | by apply IH].
Qed.

Lemma Fields_isField (line : string) : Forall isField (Str.Fields line).
Proof. apply fieldsAux_isField. constructor. Qed.

(** *** The author of a line *)

Lemma Join_snoc (sep : string) (l : list string) (x : string) :
  Str.Join sep (l ++ [x])
  = match l with
    | [] => x
    | _ => Str.Join sep l ++ sep ++ x
    end.
Proof.
  induction l as [|y l IH]; [done |].
  destruct l as [|z l]; [done |].
  change (Str.Join sep ((y :: z :: l) ++ [x]))
    with (y ++ sep ++ Str.Join sep ((z :: l) ++ [x])).
  rewrite IH.
  change (Str.Join sep (y :: z :: l)) with (y ++ sep ++ Str.Join sep (z :: l)).
  by rewrite !append_assoc.
Qed.

Lemma Join_empty (sep : string) (l : list string) :
  Forall (fun f => f ≠ "") l → Str.Join sep l = "" → l = [].
Proof.
  destruct l as [|x l]; [done |]. intros Hall H.
  apply Forall_cons in Hall as [Hx _]. destruct x as [|a x]; [done |].
  destruct l; discriminate.
Qed.

Lemma parseFields_snoc (fields : list string) (x : string) :
  parseFields (fields ++ [x]) = parseField (parseFields fields) x.
Proof. unfold parseFields. by rewrite fold_left_app. Qed.

Lemma parseFields_spec (fields : list string) :
  Forall (fun f => f ≠ "") fields →
  parseFields fields
  = mkAuthor (nameOf fields) (nicknameOf fields) (emailsOf fields) 0 0.
Proof.
  induction fields as [|x fields IH] using rev_ind; intros Hall; [done |].
  apply Forall_app in Hall as [Hall _].
  rewrite parseFields_snoc, (IH Hall). clear IH.
  assert (Hplain : Forall (fun f => f ≠ "") (List.filter isPlain fields)).
  { apply Forall_forall. intros f Hf.
    apply list_elem_of_In, filter_In in Hf as [Hf _].
    rewrite Forall_forall in Hall. by apply Hall, list_elem_of_In. }
  unfold parseField, nameOf, nicknameOf, emailsOf in *.
  rewrite !omap_app, List.filter_app. cbn [omap list_omap List.filter].
  set (plain := List.filter isPlain fields) in *.
  assert (Hp : isPlain x
               = match Re.nicknameRe x, Re.emailRe x with
                 | None, None => true
                 | _, _ => false
                 end) by done.
  assert (He : emailGroup x
               = match Re.nicknameRe x with
                 | Some _ => None
                 | None => Re.emailRe x
                 end) by done.
  rewrite Hp, He. clear Hp He.
  destruct (Re.nicknameRe x) as [g|]; cbn -[String.eqb].
  - by rewrite last_snoc, !app_nil_r.
  - destruct (Re.emailRe x) as [g|]; cbn -[String.eqb].
    + by rewrite !app_nil_r.
    + rewrite !app_nil_r, Join_snoc. unfold set_name. cbn -[String.eqb].
      destruct (String.eqb_spec (Str.Join " " plain) "") as [Hemp|Hne].
      * by apply Join_empty in Hemp as ->.
      * by destruct plain.
Qed.

Lemma getAuthors_map (bs : string) :
  getAuthors bs
  = map (fun line => parseFields (Str.Fields line))
        (List.filter (fun line => negb (skipLine line)) (Str.Split "010" bs)).
Proof.
  unfold getAuthors.
  assert (H : ∀ lines acc,
    fold_left (fun authors line =>
                 if skipLine line then authors
                 else (authors ++ [parseFields (Str.Fields line)])%list) lines acc
    = (acc ++ map (fun line => parseFields (Str.Fields line))
               (List.filter (fun line => negb (skipLine line)) lines))%list).
  { induction lines as [|l lines IH]; intros acc; simpl.
    - by rewrite app_nil_r.
    - rewrite IH. destruct (skipLine l); simpl; [done |].
      by rewrite <- app_assoc. }
  by rewrite H.
Qed.

(** C6, as amended. The author of every line that is not skipped is made of
    its fields, each classified by its shape alone: a field that has a ["("]
    and later a [")"] sets the nickname to what stands between the first
    ["("] and the last [")"] (the last such field wins); otherwise a field
    that has a ["<"] and later a [">"] appends what stands between them to
    the emails; every other field is appended to the name, joined by single
    spaces in field order. *)
Theorem getAuthors_fields (bs : string) :
  getAuthors bs
  = map (fun line =>
           mkAuthor (nameOf (Str.Fields line)) (nicknameOf (Str.Fields line))
                    (emailsOf (Str.Fields line)) 0 0)
        (List.filter (fun line => negb (skipLine line)) (Str.Split "010" bs))
  ∧ ∀ line, Forall shaped (Str.Fields line).
Proof.
  split.
  - rewrite getAuthors_map. apply map_ext. intros line.
    apply parseFields_spec.
    eapply Forall_impl; [apply Fields_isField |]. by intros f [? _].
  - intros line. eapply Forall_impl; [apply Fields_isField |].
    intros f [Hne Hsp]. split; [done |].
    split; intros g; by apply find_Some.
Qed.

(** C6, as stated, fails: the field [Jo(e)] is not enclosed in parentheses
    and yet sets the nickname instead of joining the name, and the field
    [<j(x)@x.org>], enclosed in angle brackets, sets the nickname instead of
    being appended to the emails. *)
Lemma getAuthors_field_not_enclosed :
  Str.Fields "Jo(e) <j@x.org>" = ["Jo(e)"; "<j@x.org>"]
  ∧ getAuthors "Jo(e) <j@x.org>" = [mkAuthor "" "e" ["j@x.org"] 0 0]
  ∧ Str.Fields "Jo <j(x)@x.org>" = ["Jo"; "<j(x)@x.org>"]
  ∧ getAuthors "Jo <j(x)@x.org>" = [mkAuthor "Jo" "x" [] 0 0].
Proof. repeat split; vm_compute; reflexivity. Qed.

(** ** The identity reconciler *)

Lemma allEmails_cons (a : author) (l : list author) :
  allEmails (a :: l) = (emails a ++ allEmails l)%list.
Proof. reflexivity. Qed.

Lemma allEmails_app (l k : list author) :
  allEmails (l ++ k) = (allEmails l ++ allEmails k)%list.
Proof. apply bind_app. Qed.

Lemma allEmails_singleton (a : author) : allEmails [a] = emails a.
Proof. rewrite allEmails_cons. apply app_nil_r. Qed.

Lemma allEmails_lookup (l : list author) (e : string) :
  e ∈ allEmails l ↔ ∃ i a, l !! i = Some a ∧ e ∈ emails a.
Proof.
  unfold allEmails. rewrite list_elem_of_bind. split.
  - intros (a & He & Ha). apply list_elem_of_lookup in Ha as [i Hi]. eauto.
  - intros (i & a & Hi & He). exists a. split; [done |].
    apply list_elem_of_lookup. eauto.
Qed.

Lemma foldl_add_elem (l : list string) (s : gset string) (e : string) :
  e ∈ foldl (fun s e => {[e]} ∪ s) s l ↔ e ∈ s ∨ e ∈ l.
Proof.
  revert s. induction l as [|x l IH]; intros s; simpl.
  - split; [by left |]. intros [H | H]; [done | by apply elem_of_nil in H].
  - rewrite IH, elem_of_union, elem_of_singleton, elem_of_cons. tauto.
Qed.

Lemma indexRoster_listed (l : list author) (k : nat) (L : gset string)
    (N : gmap string nat) (e : string) :
  e ∈ (indexRoster k l L N).1 ↔ e ∈ L ∨ e ∈ allEmails l.
Proof.
  revert k L N. induction l as [|a l IH]; intros k L N; cbn [indexRoster fst].
  - split; [by left |]. intros [H | H]; [done | by apply elem_of_nil in H].
  - rewrite IH, foldl_add_elem, allEmails_cons, elem_of_app. tauto.
Qed.

(** The name index of a roster points at the last author of each name. *)
Lemma indexRoster_names (l : list author) (k : nat) (L : gset string)
    (N : gmap string nat) (n : string) (i : nat) :
  (indexRoster k l L N).2 !! n = Some i
  ↔ (∃ j a, l !! j = Some a ∧ name a = n ∧ i = (k + j)%nat
            ∧ ∀ j' a', l !! j' = Some a' → name a' = n → (j' <= j)%nat)
    ∨ ((∀ a, a ∈ l → name a ≠ n) ∧ N !! n = Some i).
Proof.
  revert k L N. induction l as [|a l IH]; intros k L N; simpl.
  - split.
    + intros H. right. split; [| done]. intros a Ha. by apply elem_of_nil in Ha.
    + intros [(j & a & H & _) | [_ H]]; [done | done].
  - rewrite IH. clear IH. split.
    + intros [(j & b & Hj & Hb & -> & Hlast) | [Hno HN]].
      * left. exists (S j), b. split; [done |]. split; [done |].
        split; [lia |]. intros [|j'] a' Hj' Ha'; [lia |].
        simpl in Hj'. specialize (Hlast j' a' Hj' Ha'). lia.
      * destruct (decide (name a = n)) as [Heq|Hne].
        -- left. exists 0%nat, a. split; [done |]. split; [done |].
           rewrite Heq, lookup_insert_eq in HN. split; [injection HN; lia |].
           intros [|j'] a' Hj' Ha'; [lia |]. simpl in Hj'.
           exfalso. apply (Hno a'); [| done].
           apply list_elem_of_lookup. eauto.
        -- right. rewrite lookup_insert_ne in HN by done. split; [| done].
           intros b Hb. apply elem_of_cons in Hb as [-> | Hb]; [done | by apply Hno].
    + intros [(j & b & Hj & Hb & -> & Hlast) | [Hno HN]].
      * destruct j as [|j]; simpl in Hj.
        -- injection Hj as ->. right. split.
           ++ intros a' Ha' Hn'. apply list_elem_of_lookup in Ha' as [j' Hj'].
              specialize (Hlast (S j') a' Hj' Hn'). lia.
           ++ rewrite Hb, lookup_insert_eq. f_equal. lia.
        -- left. exists j, b. split; [done |]. split; [done |].
           split; [lia |]. intros j' a' Hj' Ha'.
           specialize (Hlast (S j') a' Hj' Ha'). lia.
      * right. split.
        -- intros b Hb. apply Hno. by right.
        -- rewrite lookup_insert_ne; [done |]. apply Hno. by left.
Qed.

Lemma initRec_authors (roster : list author) : authors (initRec roster) = roster.
Proof. unfold initRec. by destruct (indexRoster 0 roster ∅ ∅). Qed.

Lemma initRec_listed (roster : list author) (e : string) :
  e ∈ listed (initRec roster) ↔ e ∈ allEmails roster.
Proof.
  pose proof (indexRoster_listed roster 0 ∅ ∅ e) as H.
  unfold initRec. destruct (indexRoster 0 roster ∅ ∅). simpl in *.
  rewrite H. split; [| by right]. intros [Hemp | He]; [| done].
  by apply not_elem_of_empty in Hemp.
Qed.

Lemma initRec_names (roster : list author) (n : string) (i : nat) :
  names (initRec roster) !! n = Some i
  ↔ ∃ a, roster !! i = Some a ∧ name a = n
         ∧ ∀ j b, roster !! j = Some b → name b = n → (j <= i)%nat.
Proof.
  pose proof (indexRoster_names roster 0 ∅ ∅ n i) as H.
  unfold initRec. destruct (indexRoster 0 roster ∅ ∅). simpl in *.
  rewrite H. split.
  - intros [(j & a & Hj & Ha & -> & Hlast) | [_ Hemp]]; [| done].
    exists a. done.
  - intros (a & Hi & Ha & Hlast). left. exists i, a. done.
Qed.

Lemma initRec_inv (roster : list author) : recInv (initRec roster).
Proof.
  split.
  - intros e. rewrite initRec_authors. apply initRec_listed.
  - intros n i H. rewrite initRec_authors.
    apply initRec_names in H as (a & Hi & Ha & _). eauto.
Qed.

(** *** One turn of the loop *)

#[local] Arguments reconcileStep : simpl never.

Lemma reconcileStep_cases (st st' : recState) (e n : string) :
  reconcileStep st (e, n) = Some st' → stepCase st e n st'.
Proof.
  unfold reconcileStep.
  assert (Hlen : ∀ x : author,
             (length (authors st ++ [x]) - 1)%nat = length (authors st)).
  { intros x. rewrite length_app. simpl. lia. }
  rewrite Hlen.
  destruct (decide (e ∈ listed st)) as [Hin|Hnot].
  { intros [= <-]. by apply StepSkip. }
  destruct (names st !! n) as [i|] eqn:Hn.
  - destruct (String.eqb_spec n "") as [->|Hne]; simpl.
    + intros [= <-]. apply StepCreate; auto.
    + destruct (authors st !! i) as [a|] eqn:Hi; [| done].
      intros [= <-]. by eapply StepMerge.
  - intros [= <-]. apply StepCreate; auto.
Qed.

(** Under the invariant the body of the loop does not panic. *)
Lemma reconcileStep_total (st : recState) (entry : string * string) :
  recInv st → is_Some (reconcileStep st entry).
Proof.
  intros [_ Hnames]. destruct entry as [e n]. unfold reconcileStep.
  destruct (decide (e ∈ listed st)); [done |].
  destruct (names st !! n) as [i|] eqn:Hn; [| done].
  destruct (negb (String.eqb n "")); [| done].
  destruct (Hnames n i Hn) as (a & -> & _). done.
Qed.

Lemma allEmails_insert (l : list author) (i : nat) (a : author) (e : string) :
  l !! i = Some a →
  allEmails (<[i := set_emails a (emails a ++ [e])]> l) ≡ₚ e :: allEmails l.
Proof.
  revert i. induction l as [|b l IH]; intros i Hi; [done |].
  destruct i as [|i]; simpl in Hi.
  - injection Hi as ->. cbn [insert list_insert]. rewrite !allEmails_cons.
    cbn [emails set_emails]. rewrite <- app_assoc. simpl.
    symmetry. rewrite <- Permutation_middle. done.
  - cbn [insert list_insert]. rewrite !allEmails_cons, (IH i Hi).
    symmetry. apply Permutation_middle.
Qed.

Lemma reconcileStep_inv (st st' : recState) (e n : string) :
  recInv st → reconcileStep st (e, n) = Some st' → recInv st'.
Proof.
  intros [Hlisted Hnames] Hstep.
  destruct (reconcileStep_cases _ _ _ _ Hstep)
    as [_ -> | i a Hnot Hne Hn Hi -> | Hnot Hn ->]; [done | |].
  - split; cbn [authors listed names].
    + intros x. rewrite (allEmails_insert _ _ _ e Hi).
      rewrite elem_of_union, elem_of_singleton, elem_of_cons, Hlisted. tauto.
    + intros n' i' Hn'. destruct (Hnames n' i' Hn') as (b & Hb & Hname).
      destruct (decide (i = i')) as [<-|Hii].
      * rewrite list_lookup_insert_eq by (by eapply lookup_lt_Some).
        eexists. split; [done |]. cbn [name set_emails]. congruence.
      * rewrite list_lookup_insert_ne by done. eauto.
  - split; cbn [authors listed names].
    + intros x. rewrite allEmails_app, elem_of_app, elem_of_union, Hlisted.
      rewrite elem_of_singleton, allEmails_singleton.
      cbn [emails]. rewrite list_elem_of_singleton. tauto.
    + intros n' i'. destruct (decide (n = n')) as [<-|Hnn].
      * rewrite lookup_insert_eq. intros [= <-].
        rewrite list_lookup_middle by done. eauto.
      * rewrite lookup_insert_ne by done. intros Hn'.
        destruct (Hnames n' i' Hn') as (b & Hb & Hname).
        exists b. split; [| done].
        rewrite lookup_app_l; [done | by eapply lookup_lt_Some].
Qed.

(** *** The whole loop *)

Lemma reconcileLoop_total (entries : list (string * string)) (st : recState) :
  recInv st → is_Some (reconcileLoop st entries).
Proof.
  revert st. induction entries as [|[e n] entries IH]; intros st Hinv; simpl.
  - done.
  - destruct (reconcileStep_total st (e, n) Hinv) as [st' Hst'].
    rewrite Hst'. apply IH. by eapply reconcileStep_inv.
Qed.

(** A property kept by every turn is kept by the loop. *)
Lemma reconcileLoop_keeps (P : recState → Prop) (entries : list (string * string)) :
  (∀ st st' e n, (e, n) ∈ entries → recInv st → P st →
                 reconcileStep st (e, n) = Some st' → P st') →
  ∀ st st', recInv st → P st → reconcileLoop st entries = Some st' →
            recInv st' ∧ P st'.
Proof.
  induction entries as [|[e n] entries IH]; intros Hstep st st' Hinv HP; simpl.
  - by intros [= <-].
  - destruct (reconcileStep st (e, n)) as [st1|] eqn:H1; [| done].
    apply IH.
    + intros s s' e' n' Hin. apply Hstep. by right.
    + by eapply reconcileStep_inv.
    + eapply Hstep; [by left | done | done | done].
Qed.

Lemma reconcile_total (roster : list author) (entries : list (string * string)) :
  ∃ st, reconcileLoop (initRec roster) entries = Some st
        ∧ reconcile roster entries = Some (authors st).
Proof.
  destruct (reconcileLoop_total entries (initRec roster) (initRec_inv roster))
    as [st Hst].
  exists st. split; [done |]. unfold reconcile. by rewrite Hst.
Qed.

(** *** No email twice *)

Lemma reconcileStep_NoDup (st st' : recState) (e n : string) :
  recInv st → NoDup (allEmails (authors st)) →
  reconcileStep st (e, n) = Some st' → NoDup (allEmails (authors st')).
Proof.
  intros [Hlisted _] Hnd Hstep.
  destruct (reconcileStep_cases _ _ _ _ Hstep)
    as [_ -> | i a Hnot Hne Hn Hi -> | Hnot Hn ->]; [done | |];
    cbn [authors].
  - rewrite (allEmails_insert _ _ _ e Hi). apply NoDup_cons.
    split; [| done]. intros H. by apply Hnot, Hlisted.
  - rewrite allEmails_app, allEmails_singleton. cbn [emails].
    apply NoDup_app. split; [done |]. split; [| apply NoDup_singleton].
    intros x Hx Hx'. apply list_elem_of_singleton in Hx' as ->.
    by apply Hnot, Hlisted.
Qed.

Lemma NoDup_allEmails_unique (l : list author) :
  NoDup (allEmails l) →
  ∀ (e : string) (i j : nat) (a b : author),
    l !! i = Some a → l !! j = Some b → e ∈ emails a → e ∈ emails b → i = j.
Proof.
  induction l as [|c l IH]; intros Hnd e i j a b Hi Hj Ha Hb; [done |].
  rewrite allEmails_cons in Hnd. apply NoDup_app in Hnd as (_ & Hdisj & Hnd).
  destruct i as [|i], j as [|j]; simpl in Hi, Hj.
  - done.
  - injection Hi as ->. exfalso. apply (Hdisj e Ha).
    apply allEmails_lookup. eauto.
  - injection Hj as ->. exfalso. apply (Hdisj e Hb).
    apply allEmails_lookup. eauto.
  - f_equal. by apply (IH Hnd e i j a b).
Qed.

(** When no email is written twice in the roster, no email is written twice
    in the reconciled roster. *)
Lemma reconcile_NoDup (roster : list author) (entries : list (string * string)) :
  NoDup (allEmails roster) →
  ∃ res, reconcile roster entries = Some res ∧ NoDup (allEmails res).
Proof.
  intros Hnd. destruct (reconcile_total roster entries) as (st & Hloop & Hrec).
  exists (authors st). split; [done |].
  eapply (reconcileLoop_keeps (fun s => NoDup (allEmails (authors s))));
    [| apply initRec_inv | by rewrite initRec_authors | exact Hloop].
  intros s s' e n _ Hinv HP Hstep. by eapply reconcileStep_NoDup.
Qed.

(** C2, as stated, fails: a roster text may give one email to two
    Contributors, and reconciliation (here with an empty history) leaves it
    in both. *)
Lemma reconcile_email_in_two :
  reconcile (getAuthors ("A <e@x.com>" ++ LF ++ "B <e@x.com>"))
            (map_to_list (allAuthors ∅ ""))
  = Some [mkAuthor "A" "" ["e@x.com"] 0 0; mkAuthor "B" "" ["e@x.com"] 0 0].
Proof. vm_compute. reflexivity. Qed.

(** *** Running the reconciler again *)

Lemma reconcileStep_listed (st st' : recState) (e n : string) :
  reconcileStep st (e, n) = Some st' →
  e ∈ listed st' ∧ ∀ x, x ∈ listed st → x ∈ listed st'.
Proof.
  intros Hstep.
  destruct (reconcileStep_cases _ _ _ _ Hstep)
    as [Hin -> | i a Hnot Hne Hn Hi -> | Hnot Hn ->]; [done | |];
    cbn [listed]; (split; [| intros x Hx]); apply elem_of_union; auto;
    left; by apply elem_of_singleton.
Qed.

Lemma reconcileLoop_listed (entries : list (string * string)) (st st' : recState) :
  reconcileLoop st entries = Some st' →
  (∀ x, x ∈ listed st → x ∈ listed st')
  ∧ ∀ e n, (e, n) ∈ entries → e ∈ listed st'.
Proof.
  revert st. induction entries as [|[e n] entries IH]; intros st; simpl.
  - intros [= <-]. split; [done |]. intros e n H. by apply elem_of_nil in H.
  - destruct (reconcileStep st (e, n)) as [st1|] eqn:H1; [| done].
    intros Hloop. destruct (IH st1 Hloop) as [Hmono Hall].
    destruct (reconcileStep_listed _ _ _ _ H1) as [Hself Hmono1].
    split; [by auto |].
    intros e' n' Hin. apply elem_of_cons in Hin as [[= -> ->] | Hin]; eauto.
Qed.

Lemma reconcileLoop_skip (entries : list (string * string)) (st : recState) :
  (∀ e n, (e, n) ∈ entries → e ∈ listed st) →
  reconcileLoop st entries = Some st.
Proof.
  induction entries as [|[e n] entries IH]; intros Hall; simpl; [done |].
  assert (Hstep : reconcileStep st (e, n) = Some st).
  { unfold reconcileStep. rewrite decide_True; [done |]. apply (Hall e n). by left. }
  rewrite Hstep. apply IH. intros e' n' Hin. apply (Hall e' n'). by right.
Qed.

(** C9. The reconciler is idempotent: reconciling a roster with a history
    gives a roster, and reconciling that roster again with the same history,
    in whatever order the map is visited, gives it back unchanged: no
    Contributor is added and no email is appended. *)
Theorem reconcile_idempotent (roster : list author) (all : gmap string string)
    (entries1 entries2 : list (string * string)) :
  rangeOrder all entries1 → rangeOrder all entries2 →
  ∃ res, reconcile roster entries1 = Some res
         ∧ reconcile res entries2 = Some res.
Proof.
  intros H1 H2. destruct (reconcile_total roster entries1) as (st & Hloop & Hrec).
  exists (authors st). split; [done |].
  assert (Hinv : recInv st).
  { eapply (reconcileLoop_keeps (fun _ => True));
      [done | apply initRec_inv | done | exact Hloop]. }
  destruct (reconcileLoop_listed _ _ _ Hloop) as [_ Hall].
  unfold reconcile. rewrite reconcileLoop_skip; [simpl; by rewrite initRec_authors |].
  intros e n Hin. apply initRec_listed, (inv_listed _ Hinv), (Hall e n).
  unfold rangeOrder in *. by rewrite H1, <- H2.
Qed.

Lemma reconcile_idempotent_witness :
  ∃ res,
    reconcile (getAuthors "Bob (Bobby) <bob@x.com>")
      (map_to_list (allAuthors ∅ ("h1 other@x.com Bob" ++ LF ++ "h2 new@x.com Eve")))
    = Some res
    ∧ reconcile res
        (map_to_list (allAuthors ∅ ("h1 other@x.com Bob" ++ LF ++ "h2 new@x.com Eve")))
      = Some res.
Proof.
  apply (reconcile_idempotent _
           (allAuthors ∅ ("h1 other@x.com Bob" ++ LF ++ "h2 new@x.com Eve")));
    unfold rangeOrder; reflexivity.
Defined.

(** *** Merging by name *)

Lemma reconcileLoop_app (l1 l2 : list (string * string)) (st : recState) :
  reconcileLoop st (l1 ++ l2)
  = match reconcileLoop st l1 with
    | Some st1 => reconcileLoop st1 l2
    | None => None
    end.
Proof.
  revert st. induction l1 as [|x l1 IH]; intros st; simpl; [done |].
  destruct (reconcileStep st x); [apply IH | done].
Qed.

Section NameMatch.

(** The discovered email [e2], its name [n], and the author [c] that the
    name index gives for [n], at the index [i]. *)
Variables (e2 n : string) (i : nat) (c : author).
Hypothesis n_not_empty : n ≠ "".

Lemma grown_step (st st' : recState) (e m : string) :
  grown i c st → reconcileStep st (e, m) = Some st' → grown i c st'.
Proof.
  intros (a & Ha & Hname & Hnick & Hpre) Hstep. unfold grown.
  destruct (reconcileStep_cases _ _ _ _ Hstep)
    as [_ -> | i' a' Hnot Hne Hn Hi -> | Hnot Hn ->]; cbn [authors].
  - by exists a.
  - destruct (decide (i' = i)) as [->|Hii].
    + rewrite Ha in Hi. injection Hi as <-.
      eexists. rewrite list_lookup_insert_eq by (by eapply lookup_lt_Some).
      split; [done |]. cbn [name nickname emails set_emails].
      split; [done |]. split; [done |]. by apply prefix_app_r.
    + exists a. by rewrite list_lookup_insert_ne.
  - exists a. split; [| done].
    rewrite lookup_app_l; [done | by eapply lookup_lt_Some].
Qed.

Lemma waiting_step (st st' : recState) (e m : string) :
  e ≠ e2 → waiting e2 n i c st → reconcileStep st (e, m) = Some st' → waiting e2 n i c st'.
Proof.
  intros Hee (Hnot2 & Hnames & Hgrown) Hstep. unfold waiting.
  split; [| split; [| by eapply grown_step]];
    destruct (reconcileStep_cases _ _ _ _ Hstep)
      as [_ -> | i' a' Hnot Hne Hn Hi -> | Hnot Hn ->];
    cbn [listed names]; try done.
  - rewrite elem_of_union, elem_of_singleton. intros [? | ?]; congruence.
  - rewrite elem_of_union, elem_of_singleton. intros [? | ?]; congruence.
  - rewrite lookup_insert_ne; [done |].
    intros ->. destruct Hn as [Hn | Hn]; congruence.
Qed.

Lemma merged_step (st st' : recState) (e m : string) :
  merged e2 i c st → reconcileStep st (e, m) = Some st' → merged e2 i c st'.
Proof.
  intros (Hin & (a & Ha & Hname & Hnick & Hpre & He2) & Huniq) Hstep.
  unfold merged.
  destruct (reconcileStep_cases _ _ _ _ Hstep)
    as [_ -> | i' a' Hnot Hne Hn Hi -> | Hnot Hn ->]; cbn [authors listed].
  - split; [done |]. split; [| done]. by exists a.
  - assert (Hee : e ≠ e2) by congruence.
    split; [apply elem_of_union; by right |]. split.
    + destruct (decide (i' = i)) as [->|Hii].
      * rewrite Ha in Hi. injection Hi as <-.
        eexists. rewrite list_lookup_insert_eq by (by eapply lookup_lt_Some).
        split; [done |]. cbn [name nickname emails set_emails].
        split; [done |]. split; [done |].
        split; [by apply prefix_app_r | apply elem_of_app; by left].
      * exists a. by rewrite list_lookup_insert_ne.
    + intros j b Hj Hb. apply list_lookup_insert_Some in Hj
        as [(<- & <- & _) | [_ Hj]]; [| by eapply Huniq].
      cbn [emails set_emails] in Hb. apply elem_of_app in Hb as [Hb | Hb].
      * by eapply Huniq.
      * apply list_elem_of_singleton in Hb. congruence.
  - assert (Hee : e ≠ e2) by congruence.
    split; [apply elem_of_union; by right |]. split.
    + exists a. split; [| done].
      rewrite lookup_app_l; [done | by eapply lookup_lt_Some].
    + intros j b Hj Hb. apply lookup_snoc_Some in Hj as [[_ Hj] | [_ <-]].
      * by eapply Huniq.
      * cbn [emails] in Hb. apply list_elem_of_singleton in Hb. congruence.
Qed.

(** The turn that visits [e2] merges it into the author at [i]. *)
Lemma waiting_merge (st st' : recState) :
  recInv st → waiting e2 n i c st → reconcileStep st (e2, n) = Some st' → merged e2 i c st'.
Proof.
  intros [Hlisted _] (Hnot2 & Hnames & (a & Ha & Hname & Hnick & Hpre)) Hstep.
  destruct (reconcileStep_cases _ _ _ _ Hstep)
    as [Hin _ | i' a' Hnot Hne Hn Hi -> | Hnot [Hn | Hn] ->];
    [done | | congruence | congruence].
  rewrite Hnames in Hn. injection Hn as <-. rewrite Ha in Hi. injection Hi as <-.
  unfold merged. cbn [authors listed]. split; [apply elem_of_union; left; by apply elem_of_singleton |].
  split.
  - eexists. rewrite list_lookup_insert_eq by (by eapply lookup_lt_Some).
    split; [done |]. cbn [name nickname emails set_emails].
    split; [done |]. split; [done |].
    split; [by apply prefix_app_r | apply elem_of_app; right; by left].
  - intros j b Hj Hb. apply list_lookup_insert_Some in Hj
      as [(<- & _ & _) | [_ Hj]]; [done |].
    exfalso. apply Hnot2, Hlisted, allEmails_lookup. eauto.
Qed.

Lemma waiting_loop (entries : list (string * string)) (st : recState) :
  recInv st → waiting e2 n i c st → (e2, n) ∈ entries → NoDup entries.*1 →
  ∃ st', reconcileLoop st entries = Some st' ∧ merged e2 i c st'.
Proof.
  intros Hinv Hwait Hin Hnd.
  apply list_elem_of_split in Hin as (pre & post & ->).
  rewrite fmap_app, fmap_cons in Hnd. cbn [fst] in Hnd.
  apply NoDup_app in Hnd as (_ & Hdisj & _).
  destruct (reconcileLoop_total pre st Hinv) as [st1 H1].
  destruct (reconcileLoop_keeps (waiting e2 n i c) pre) with (st := st) (st' := st1)
    as [Hinv1 Hwait1]; [| done | done | done |].
  { intros s s' e m Hem _ Hs Hstep. eapply waiting_step; [| done | done].
    intros ->. apply (Hdisj e2); [| by left].
    apply list_elem_of_fmap. by exists (e2, m). }
  destruct (reconcileStep_total st1 (e2, n) Hinv1) as [st2 H2].
  pose proof (waiting_merge _ _ Hinv1 Hwait1 H2) as Hm2.
  pose proof (reconcileStep_inv _ _ _ _ Hinv1 H2) as Hinv2.
  destruct (reconcileLoop_total post st2 Hinv2) as [st3 H3].
  exists st3. rewrite reconcileLoop_app, H1. cbn [reconcileLoop]. rewrite H2.
  split; [done |].
  eapply (reconcileLoop_keeps (merged e2 i c) post); [| exact Hinv2 | done | done].
  intros s s' e m _ _ Hs Hstep. by eapply merged_step.
Qed.

End NameMatch.

Lemma indexRoster_names_is_Some (l : list author) (k : nat) (L : gset string)
    (N : gmap string nat) (n : string) :
  (∃ a, a ∈ l ∧ name a = n) ∨ is_Some (N !! n) →
  is_Some ((indexRoster k l L N).2 !! n).
Proof.
  revert k L N. induction l as [|a l IH]; intros k L N H; cbn [indexRoster].
  - destruct H as [(a & Ha & _) | H]; [by apply elem_of_nil in Ha | done].
  - apply IH. destruct H as [(b & Hb & Hn) | H].
    + apply elem_of_cons in Hb as [-> | Hb]; [| left; eauto].
      right. rewrite Hn, lookup_insert_eq. eauto.
    + right. destruct (decide (name a = n)) as [->|Hne].
      * rewrite lookup_insert_eq. eauto.
      * by rewrite lookup_insert_ne.
Qed.

(** C3, as amended. When the history gives the name [n], not empty, to an
    email [e2] that no roster Contributor lists, and [n] is exactly the name
    of a roster Contributor, then reconciliation, in whatever order the map
    is visited, appends [e2] to the emails of the roster Contributor of that
    name that the name index holds, the last of that name in the roster,
    whose name, nickname and earlier emails stay, and [e2] is in the emails
    of no other Contributor: no new Contributor is created for [e2]. *)
Theorem reconcile_name_match (roster : list author) (all : gmap string string)
    (entries : list (string * string)) (e2 n : string) :
  rangeOrder all entries →
  all !! e2 = Some n → n ≠ "" →
  e2 ∉ allEmails roster →
  (∃ c, c ∈ roster ∧ name c = n) →
  ∃ (res : list author) (i : nat) (c c' : author),
    reconcile roster entries = Some res
    ∧ roster !! i = Some c ∧ name c = n
    ∧ (∀ j b, roster !! j = Some b → name b = n → (j <= i)%nat)
    ∧ res !! i = Some c' ∧ name c' = n ∧ nickname c' = nickname c
    ∧ emails c `prefix_of` emails c' ∧ e2 ∈ emails c'
    ∧ ∀ j b, res !! j = Some b → e2 ∈ emails b → j = i.
Proof.
  intros Horder Hall Hn Hnew Hname.
  assert (Hidx : is_Some (names (initRec roster) !! n)).
  { pose proof (indexRoster_names_is_Some roster 0 ∅ ∅ n (or_introl Hname)) as H.
    unfold initRec. by destruct (indexRoster 0 roster ∅ ∅). }
  destruct Hidx as [i Hi].
  pose proof (proj1 (initRec_names roster n i) Hi) as (c & Hc & Hcn & Hlast).
  destruct (waiting_loop e2 n i c Hn entries (initRec roster))
    as (st & Hloop & Hin & (c' & Hc' & Hn' & Hk' & Hpre & He2) & Huniq).
  - apply initRec_inv.
  - split; [by rewrite initRec_listed |]. split; [done |].
    exists c. by rewrite initRec_authors.
  - unfold rangeOrder in Horder. rewrite Horder. by apply elem_of_map_to_list.
  - unfold rangeOrder in Horder. rewrite Horder. apply NoDup_fst_map_to_list.
  - exists (authors st), i, c, c'. unfold reconcile. rewrite Hloop.
    repeat (split; [done || congruence |]). done.
Qed.

Lemma reconcile_name_match_witness :
  ∃ (res : list author) (i : nat) (c c' : author),
    reconcile (getAuthors "Bob (Bobby) <bob@x.com>")
      (map_to_list (allAuthors ∅ ("h1 other@x.com Bob" ++ LF ++ "h2 new@x.com Eve")))
    = Some res
    ∧ getAuthors "Bob (Bobby) <bob@x.com>" !! i = Some c ∧ name c = "Bob"
    ∧ (∀ j b, getAuthors "Bob (Bobby) <bob@x.com>" !! j = Some b →
              name b = "Bob" → (j <= i)%nat)
    ∧ res !! i = Some c' ∧ name c' = "Bob" ∧ nickname c' = nickname c
    ∧ emails c `prefix_of` emails c' ∧ "other@x.com" ∈ emails c'
    ∧ ∀ j b, res !! j = Some b → "other@x.com" ∈ emails b → j = i.
Proof.
  apply (reconcile_name_match _
           (allAuthors ∅ ("h1 other@x.com Bob" ++ LF ++ "h2 new@x.com Eve"))).
  - unfold rangeOrder. reflexivity.
  - reflexivity.
  - discriminate.
  - vm_compute. intros H. apply list_elem_of_singleton in H. discriminate.
  - exists (mkAuthor "Bob" "Bobby" ["bob@x.com"] 0 0). split; [| reflexivity].
    vm_compute. by left.
Defined.

(** ** The contribution counter *)

Section CounterProps.

Variable intLog2 : Z -> Z.

Lemma emailIndex_bound (l : list author) (k : nat) (idx : gmap string nat)
  (bound : nat) :
(k + length l <= bound)%nat →
(∀ e i, idx !! e = Some i → (i < bound)%nat) →
∀ e i, emailIndex k l idx !! e = Some i → (i < bound)%nat.
Proof.
revert k idx. induction l as [|a l IH]; intros k idx Hk Hidx; cbn [emailIndex].
- done.
- simpl in Hk. apply IH; [lia |].
  clear IH. generalize dependent idx.
  induction (emails a) as [|x xs IHx]; intros idx Hidx; simpl; [done |].
  apply IHx. intros e i. destruct (decide (x = e)) as [->|Hne].
  + rewrite lookup_insert_eq. intros [= <-]. lia.
  + rewrite lookup_insert_ne by done. apply Hidx.
Qed.

Lemma countLines_total (emailIdx : gmap string nat) (lines : list string)
  (authors : list author) :
(∀ e i, emailIdx !! e = Some i → (i < length authors)%nat) →
∃ authors', countLines emailIdx authors lines = Some authors'
            ∧ length authors' = length authors.
Proof.
revert authors. induction lines as [|line lines IH]; intros authors Hidx;
  cbn [countLines]; [by eexists |].
unfold countLine. destruct (emailIdx !! line) as [i|] eqn:Hi; [| by apply IH].
destruct (lookup_lt_is_Some_2 authors i (Hidx _ _ Hi)) as [a Ha]. rewrite Ha.
destruct (IH (<[i := set_commits a (wrapInt (commits a + 1))]> authors))
  as (authors' & H & Hlen).
- intros e j. rewrite length_insert. apply Hidx.
- exists authors'. split; [done |]. by rewrite Hlen, length_insert.
Qed.

(** The counter does not panic, keeps the number of authors, and ranks every
  author, also one without commits, by [intLog2] of its commits. *)
Lemma getContributions_total (buf : string) (authors : list author) :
∃ authors', getContributions intLog2 buf authors = Some authors'
            ∧ length authors' = length authors
            ∧ Forall (fun a => geekrank a = intLog2 (commits a)) authors'.
Proof.
unfold getContributions.
destruct (countLines_total (emailIndex 0 authors ∅) (Str.Split "010" buf) authors)
  as (counted & -> & Hlen).
- apply (emailIndex_bound authors 0 ∅); [simpl; lia |]. intros e i H. done.
- exists (map (rank intLog2) counted). split; [done |].
  split; [by rewrite length_map |].
  apply Forall_forall. intros a Ha. apply list_elem_of_In, in_map_iff in Ha
    as (b & <- & _). reflexivity.
Qed.

End CounterProps.

(** C1, on the code. The history has two commits of [a@x.com], [hash2]
    and [hash1], and the exclusion file lists [hash2]: the excluded commit
    is left out of the discovery of identities (the name [Alicia] that it
    bears is not seen) but it is counted, and every run ends with two
    commits for Alice, not with the one commit that is not excluded. *)
Theorem mainCounted_counts_excluded (intLog2 : Z -> Z) (res : list author) :
  mainCounted intLog2 None (Some "hash2")
    [mkCommit "hash2" "a@x.com" "Alicia"; mkCommit "hash1" "a@x.com" "Alice"] res
  ↔ res = [mkAuthor "Alice" "" ["a@x.com"] 2 (intLog2 2)].
Proof.
  assert (Hd : map_to_list
                 (discovered (Some "hash2")
                    [mkCommit "hash2" "a@x.com" "Alicia";
                     mkCommit "hash1" "a@x.com" "Alice"])
               = [("a@x.com", "Alice")]) by (vm_compute; reflexivity).
  unfold mainCounted, rangeOrder. rewrite Hd. split.
  - intros (entries & Hperm & Hres).
    apply Permutation_singleton_r in Hperm as ->.
    vm_compute in Hres. congruence.
  - intros ->. exists [("a@x.com", "Alice")]. split; [done |].
    vm_compute. reflexivity.
Qed.

(** * Further properties of the code *)

(** ** The string set *)

(** X1. A set built by [stringSetFromStrings] has exactly the strings of
    the slice, and the set of [main] when no exclusion file is given (Go's
    nil map) has none. *)
Theorem stringSetFromStrings_has (ss : list string) (e : string) :
  (stringSet_has (stringSetFromStrings ss) e = true ↔ e ∈ ss)
  ∧ stringSet_has (loadExclude None) e = false.
Proof.
  split.
  - unfold stringSet_has, stringSetFromStrings.
    rewrite bool_decide_eq_true, foldl_add_elem. split; [| by right].
    intros [H | H]; [by apply not_elem_of_empty in H | done].
  - unfold stringSet_has, loadExclude. apply bool_decide_eq_false.
    apply not_elem_of_empty.
Qed.

(** ** The lines of the log *)

Lemma cut_Some (c : ascii) (s l r : string) :
  Str.cut c s = Some (l, r) ↔ s = l ++ String c r ∧ c ∉ bytes l.
Proof.
  revert l. induction s as [|a s IH]; intros l; cbn [Str.cut].
  - split; [done |]. intros [H _]. by destruct l.
  - destruct (Ascii.eqb_spec a c) as [->|Hne].
    + split.
      * intros [= <- <-]. split; [done | apply not_elem_of_nil].
      * intros [H Hl]. destruct l as [|b l]; simpl in H.
        -- by injection H as ->.
        -- injection H as -> _. exfalso. apply Hl. by left.
    + destruct (Str.cut c s) as [[l' r']|] eqn:Hcut.
      * split.
        -- intros [= <- <-]. destruct (proj1 (IH l') eq_refl) as [-> Hl'].
           split; [done |]. simpl. apply not_elem_of_cons. split; [congruence | done].
        -- intros [H Hl]. destruct l as [|b l]; simpl in H; [congruence |].
           injection H as -> H. simpl in Hl. apply not_elem_of_cons in Hl as [_ Hl].
           assert (Heq : Some (l', r') = Some (l, r)) by (by apply IH).
           congruence.
      * split; [done |]. intros [H Hl].
        destruct l as [|b l]; simpl in H; [congruence |].
        injection H as -> H. simpl in Hl. apply not_elem_of_cons in Hl as [_ Hl].
        assert (Heq : None = Some (l, r)) by (by apply IH). done.
Qed.

Lemma SplitN_3 (line h e n : string) :
  Str.SplitN " " line 3 = [h; e; n]
  ↔ ∃ r, Str.cut " " line = Some (h, r) ∧ Str.cut " " r = Some (e, n).
Proof.
  cbn [Str.SplitN]. destruct (Str.cut " " line) as [[l r]|] eqn:H1.
  - destruct (Str.cut " " r) as [[l' r']|] eqn:H2; split.
    + intros [= -> -> ->]. by exists r.
    + intros (r0 & [= -> <-] & H). rewrite H2 in H. by injection H as -> ->.
    + done.
    + intros (r0 & [= -> <-] & H). by rewrite H2 in H.
  - split; [done |]. intros (r & ? & _). done.
Qed.

(** X2. A line of the log gives the record of an email and a name exactly
    when it reads [hash email name] with single spaces after a hash and an
    email that have no space, and the hash is not excluded; the name is the
    whole remainder, spaces included.  Any other line (fewer than two
    spaces, or an excluded hash) is skipped. *)
Theorem record_spec (exclude : gset string) (line e n : string) :
  record exclude line = Some (e, n)
  ↔ ∃ h, line = h ++ " " ++ e ++ " " ++ n
         ∧ (" "%char ∉ bytes h) ∧ (" "%char ∉ bytes e) ∧ h ∉ exclude.
Proof.
  unfold record. split.
  - destruct (Str.SplitN " " line 3) as [|h [|e' [|n' [|x l]]]] eqn:Hs; try done.
    destruct (decide (h ∈ exclude)) as [|Hex]; [done |].
    intros [= -> ->]. apply SplitN_3 in Hs as (r & H1 & H2).
    apply cut_Some in H1 as [-> Hh]. apply cut_Some in H2 as [-> He].
    by exists h.
  - intros (h & -> & Hh & He & Hex).
    assert (Hs : Str.SplitN " " (h ++ " " ++ e ++ " " ++ n) 3 = [h; e; n]).
    { apply SplitN_3. exists (e ++ " " ++ n). split; by apply cut_Some. }
    rewrite Hs. by rewrite decide_False.
Qed.

(** ** The discovered identities *)

Lemma allAuthorsLine_lookup (exclude : gset string) (names : gmap string string)
    (line e n : string) :
  allAuthorsLine exclude names line !! e = Some n →
  names !! e = Some n ∨ record exclude line = Some (e, n).
Proof.
  rewrite allAuthorsLine_record.
  destruct (record exclude line) as [[e' n']|]; [| by left].
  destruct (String.eqb (getString names e') ""); [| by left].
  destruct (decide (e' = e)) as [->|Hne].
  - rewrite lookup_insert_eq. intros [= ->]. by right.
  - rewrite lookup_insert_ne by done. by left.
Qed.

Lemma allAuthorsLine_is_Some (exclude : gset string) (names : gmap string string)
    (line e : string) :
  is_Some (names !! e) ∨ (∃ n, record exclude line = Some (e, n)) →
  is_Some (allAuthorsLine exclude names line !! e).
Proof.
  rewrite allAuthorsLine_record. intros [Hin | [n Hrec]].
  - destruct (record exclude line) as [[e' n']|]; [| done].
    destruct (String.eqb (getString names e') ""); [| done].
    destruct (decide (e' = e)) as [->|Hne].
    + rewrite lookup_insert_eq. eauto.
    + by rewrite lookup_insert_ne.
  - rewrite Hrec. destruct (String.eqb_spec (getString names e) "") as [Hemp|Hne].
    + rewrite lookup_insert_eq. eauto.
    + unfold getString in Hne. destruct (names !! e); [eauto | done].
Qed.

Lemma allAuthorsLines_lookup (exclude : gset string) (lines : list string)
    (names : gmap string string) (e n : string) :
  foldl (allAuthorsLine exclude) names lines !! e = Some n →
  names !! e = Some n ∨ ∃ line, line ∈ lines ∧ record exclude line = Some (e, n).
Proof.
  revert names. induction lines as [|l lines IH]; intros names; simpl; [by left |].
  intros H. destruct (IH _ H) as [H1 | (line & Hin & Hrec)].
  - apply allAuthorsLine_lookup in H1 as [H1 | H1]; [by left |].
    right. exists l. split; [by left | done].
  - right. exists line. split; [by right | done].
Qed.

Lemma allAuthorsLines_is_Some (exclude : gset string) (lines : list string)
    (names : gmap string string) (e : string) :
  is_Some (names !! e)
  ∨ (∃ line n, line ∈ lines ∧ record exclude line = Some (e, n)) →
  is_Some (foldl (allAuthorsLine exclude) names lines !! e).
Proof.
  revert names. induction lines as [|l lines IH]; intros names; simpl.
  - intros [H | (line & n & Hin & _)]; [done | by apply elem_of_nil in Hin].
  - intros [H | (line & n & Hin & Hrec)].
    + apply IH. left. apply allAuthorsLine_is_Some. by left.
    + apply elem_of_cons in Hin as [-> | Hin].
      * apply IH. left. apply allAuthorsLine_is_Some. right. by exists n.
      * apply IH. right. by exists line, n.
Qed.

(** X3. [allAuthors] discovers exactly the emails of the records it reads:
    an email is a key of the result exactly when some line of the log gives
    a record of that email, and the name it maps to is the name of such a
    record.  An email that occurs only in excluded commits or in malformed
    lines is never discovered. *)
Theorem allAuthors_discovers (exclude : gset string) (bs e : string) :
  (is_Some (allAuthors exclude bs !! e)
   ↔ ∃ line n, line ∈ Str.Split "010" bs ∧ record exclude line = Some (e, n))
  ∧ ∀ n, allAuthors exclude bs !! e = Some n →
         ∃ line, line ∈ Str.Split "010" bs ∧ record exclude line = Some (e, n).
Proof.
  assert (Hname : ∀ n, allAuthors exclude bs !! e = Some n →
            ∃ line, line ∈ Str.Split "010" bs ∧ record exclude line = Some (e, n)).
  { intros n H. apply allAuthorsLines_lookup in H as [H | H]; [| done].
    by rewrite lookup_empty in H. }
  split; [| exact Hname]. split.
  - intros [n Hn]. destruct (Hname n Hn) as (line & Hin & Hrec). by exists line, n.
  - intros H. apply allAuthorsLines_is_Some. by right.
Qed.

(** X4. An email whose records all bear the empty name, and which has at
    least one record, is discovered with the empty name. *)
Theorem allAuthors_empty_name (exclude : gset string) (bs e : string) :
  (∃ line, line ∈ Str.Split "010" bs ∧ record exclude line = Some (e, "")) →
  (∀ line n, line ∈ Str.Split "010" bs → record exclude line = Some (e, n) → n = "") →
  allAuthors exclude bs !! e = Some "".
Proof.
  intros (line & Hin & Hrec) Hall.
  assert (Hsome : is_Some (allAuthors exclude bs !! e)).
  { apply allAuthorsLines_is_Some. right. by exists line, "". }
  destruct Hsome as [n Hn]. rewrite Hn. f_equal.
  apply allAuthorsLines_lookup in Hn as [Hn | (l & Hl & Hr)].
  - by rewrite lookup_empty in Hn.
  - by eapply Hall.
Qed.

Lemma allAuthors_empty_name_witness :
  allAuthors {["h3"]} ("h1 e@x " ++ LF ++ "bad" ++ LF ++ "h3 e@x Eve") !! "e@x"
  = Some "".
Proof.
  apply allAuthors_empty_name.
  - exists "h1 e@x ". split; [by left | reflexivity].
  - intros line n Hin Hrec.
    repeat (apply elem_of_cons in Hin as [-> | Hin]);
      [vm_compute in Hrec; congruence .. | by apply elem_of_nil in Hin].
Defined.

(** ** More on the identity reconciler *)

Lemma extended_refl (c : author) : extended c c.
Proof. by repeat split. Qed.

Lemma keepsRoster_step (roster : list author) (st st' : recState) (e n : string) :
  keepsRoster roster st → reconcileStep st (e, n) = Some st' →
  keepsRoster roster st'.
Proof.
  intros [Hlen Hkeep] Hstep. unfold keepsRoster.
  destruct (reconcileStep_cases _ _ _ _ Hstep)
    as [_ -> | i a Hnot Hne Hn Hi -> | Hnot Hn ->]; cbn [authors].
  - done.
  - split; [by rewrite length_insert |].
    intros j c Hc. destruct (Hkeep j c Hc) as (c' & Hc' & Hn' & Hk' & Hco & Hg & Hpre).
    destruct (decide (i = j)) as [->|Hij].
    + rewrite Hi in Hc'. injection Hc' as <-.
      eexists. rewrite list_lookup_insert_eq by (by eapply lookup_lt_Some).
      split; [done |]. unfold extended. cbn [name nickname emails commits geekrank set_emails].
      repeat (split; [done |]). by apply prefix_app_r.
    + exists c'. rewrite list_lookup_insert_ne by done. by repeat split.
  - split; [rewrite length_app; lia |].
    intros j c Hc. destruct (Hkeep j c Hc) as (c' & Hc' & Hext).
    exists c'. split; [| done].
    rewrite lookup_app_l; [done | by eapply lookup_lt_Some].
Qed.

(** X5. Reconciliation never panics and keeps the roster in place: the
    result begins with the roster's Contributors in their order, each with
    its name, nickname, commits and geekrank unchanged and its emails
    extended at the end at most; new Contributors come after them. *)
Theorem reconcile_keeps_roster (roster : list author)
    (entries : list (string * string)) :
  ∃ res, reconcile roster entries = Some res
         ∧ (length roster <= length res)%nat
         ∧ ∀ i c, roster !! i = Some c →
                  ∃ c', res !! i = Some c' ∧ extended c c'.
Proof.
  destruct (reconcile_total roster entries) as (st & Hloop & Hrec).
  exists (authors st). split; [done |].
  eapply (reconcileLoop_keeps (keepsRoster roster));
    [| apply initRec_inv | | exact Hloop].
  - intros s s' e n _ _ Hs Hstep. by eapply keepsRoster_step.
  - split; rewrite initRec_authors; [done |].
    intros i c Hc. exists c. split; [done | apply extended_refl].
Qed.

(** X6. A history that brings only emails that the roster lists leaves the
    roster as it is, whatever names the history gives to those emails: the
    email decides before the name. *)
Theorem reconcile_known_emails (roster : list author)
    (entries : list (string * string)) :
  (∀ e n, (e, n) ∈ entries → e ∈ allEmails roster) →
  reconcile roster entries = Some roster.
Proof.
  intros Hall. unfold reconcile. rewrite reconcileLoop_skip.
  - simpl. by rewrite initRec_authors.
  - intros e n Hin. apply initRec_listed. by eapply Hall.
Qed.

Lemma reconcile_known_emails_witness :
  reconcile (getAuthors "Bob (Bobby) <bob@x.com> <b2@x.com>")
            [("b2@x.com", "Robert"); ("bob@x.com", "")]
  = Some (getAuthors "Bob (Bobby) <bob@x.com> <b2@x.com>").
Proof.
  apply reconcile_known_emails. intros e n Hin. vm_compute.
  repeat (apply elem_of_cons in Hin as [[= -> ->] | Hin]);
    [by right; left | by left | by apply elem_of_nil in Hin].
Defined.

(** The emails after a turn: the email of the pair is added when it was not
    listed, and nothing else changes. *)
Lemma reconcileStep_emails (st st' : recState) (e n : string) :
  reconcileStep st (e, n) = Some st' →
  (e ∈ listed st ∧ st' = st)
  ∨ ((e ∉ listed st) ∧ listed st' = {[e]} ∪ listed st
     ∧ allEmails (authors st') ≡ₚ allEmails (authors st) ++ [e]).
Proof.
  intros Hstep.
  destruct (reconcileStep_cases _ _ _ _ Hstep)
    as [Hin -> | i a Hnot Hne Hn Hi -> | Hnot Hn ->]; [by left | |];
    right; cbn [authors listed]; (split; [done |]); (split; [done |]).
  - rewrite (allEmails_insert _ _ _ e Hi). apply Permutation_cons_append.
  - by rewrite allEmails_app, allEmails_singleton.
Qed.

Lemma filter_iff_in {A} (P1 P2 : A → Prop) `{!∀ x, Decision (P1 x)}
    `{!∀ x, Decision (P2 x)} (l : list A) :
  (∀ x, x ∈ l → P1 x ↔ P2 x) → filter P1 l = filter P2 l.
Proof.
  induction l as [|a l IH]; intros Hiff; [done |].
  assert (Ha : P1 a ↔ P2 a) by (apply Hiff; by left).
  assert (Hl : filter P1 l = filter P2 l)
    by (apply IH; intros x Hx; apply Hiff; by right).
  destruct (decide (P1 a)) as [Hp | Hp].
  - rewrite !filter_cons_True by tauto. by rewrite Hl.
  - rewrite !filter_cons_False by tauto. done.
Qed.

Lemma reconcileLoop_emails (entries : list (string * string)) (st st' : recState) :
  NoDup entries.*1 → reconcileLoop st entries = Some st' →
  allEmails (authors st')
  ≡ₚ allEmails (authors st) ++ filter (fun e => e ∉ listed st) entries.*1.
Proof.
  revert st. induction entries as [|[e n] entries IH]; intros st Hnd.
  - intros [= <-]. by rewrite app_nil_r.
  - rewrite fmap_cons in *. cbn [fst reconcileLoop] in *.
    apply NoDup_cons in Hnd as [Hfresh Hnd].
    destruct (reconcileStep st (e, n)) as [st1|] eqn:H1; [| done].
    intros Hloop. rewrite (IH st1 Hnd Hloop).
    destruct (reconcileStep_emails _ _ _ _ H1) as [[Hin ->] | (Hnot & Hl & Hp)].
    + by rewrite filter_cons_False by (intros H; by apply H).
    + rewrite filter_cons_True by done. rewrite Hp, <- app_assoc.
      apply Permutation_app_head. cbn [app]. f_equiv.
      erewrite filter_iff_in; [done |]. intros x Hx. cbn beta.
      rewrite Hl, elem_of_union, elem_of_singleton. split.
      * intros H ?. apply H. by right.
      * intros H [-> | ?]; [done | by apply H].
Qed.

(** X7. Reconciliation adds exactly the discovered emails that the roster
    does not list, each once, and drops no email: the emails of the
    reconciled roster are those of the roster followed, up to their order,
    by the discovered emails that were not listed. *)
Theorem reconcile_emails_added (roster : list author) (all : gmap string string)
    (entries : list (string * string)) :
  rangeOrder all entries →
  ∃ res, reconcile roster entries = Some res
         ∧ allEmails res
           ≡ₚ allEmails roster
              ++ filter (fun e => e ∉ allEmails roster) entries.*1.
Proof.
  intros Horder.
  destruct (reconcile_total roster entries) as (st & Hloop & Hrec).
  exists (authors st). split; [done |].
  rewrite (reconcileLoop_emails entries (initRec roster) st); [| | done].
  - rewrite initRec_authors. apply Permutation_app_head.
    erewrite list_filter_iff; [done |]. intros x. simpl.
    by rewrite initRec_listed.
  - unfold rangeOrder in Horder. rewrite Horder. apply NoDup_fst_map_to_list.
Qed.

Lemma reconcile_emails_added_witness :
  ∃ res,
    reconcile (getAuthors "Bob (Bobby) <bob@x.com>")
      (map_to_list (allAuthors ∅ ("h1 other@x.com Bob" ++ LF ++ "h2 bob@x.com Bob")))
    = Some res
    ∧ allEmails res
      ≡ₚ allEmails (getAuthors "Bob (Bobby) <bob@x.com>")
         ++ filter (fun e => e ∉ allEmails (getAuthors "Bob (Bobby) <bob@x.com>"))
              (map_to_list
                 (allAuthors ∅ ("h1 other@x.com Bob" ++ LF ++ "h2 bob@x.com Bob"))).*1.
Proof.
  apply (reconcile_emails_added _
           (allAuthors ∅ ("h1 other@x.com Bob" ++ LF ++ "h2 bob@x.com Bob"))).
  unfold rangeOrder. reflexivity.
Defined.

(** *** Empty names *)

(** X8. An email that the roster does not list and that the history
    discovers with the empty name always becomes a Contributor of its own,
    after those of the roster, with the empty name, no nickname and that
    single email: the empty name never merges, and no later email is merged
    into a nameless Contributor. *)
Theorem reconcile_empty_name (roster : list author) (all : gmap string string)
    (entries : list (string * string)) (e : string) :
  rangeOrder all entries →
  all !! e = Some "" →
  e ∉ allEmails roster →
  ∃ res j, reconcile roster entries = Some res
           ∧ (length roster <= j)%nat
           ∧ res !! j = Some (mkAuthor "" "" [e] 0 0).
Proof.
  intros Horder Hall Hnew. unfold rangeOrder in Horder.
  assert (Hin : (e, "") ∈ entries) by (rewrite Horder; by apply elem_of_map_to_list).
  assert (Hnd : NoDup entries.*1) by (rewrite Horder; apply NoDup_fst_map_to_list).
  apply list_elem_of_split in Hin as (pre & post & ->).
  rewrite fmap_app, fmap_cons in Hnd. cbn [fst] in Hnd.
  apply NoDup_app in Hnd as (_ & Hdisj & _).
  pose proof (initRec_inv roster) as Hinv.
  destruct (reconcileLoop_total pre _ Hinv) as [st1 H1].
  destruct (reconcileLoop_keeps
              (fun s => (e ∉ listed s) ∧ keepsRoster roster s) pre)
    with (st := initRec roster) (st' := st1) as [Hinv1 [Hnot1 [Hlen1 _]]];
    [| done | | done |].
  { intros s s' e' m Hem _ [Hs Hk] Hstep.
    split; [| by eapply keepsRoster_step].
    assert (Hee : e' ≠ e).
    { intros ->. apply (Hdisj e); [| by left].
      apply list_elem_of_fmap. by exists (e, m). }
    destruct (reconcileStep_emails _ _ _ _ Hstep) as [[_ ->] | (_ & Hl & _)];
      [done |].
    rewrite Hl, elem_of_union, elem_of_singleton. intros [? | ?]; congruence. }
  { split; [by rewrite initRec_listed |].
    split; rewrite initRec_authors; [done |].
    intros i c Hc. exists c. split; [done | apply extended_refl]. }
  destruct (reconcileStep_total st1 (e, "") Hinv1) as [st2 H2].
  pose proof (reconcileStep_inv _ _ _ _ Hinv1 H2) as Hinv2.
  destruct (reconcileLoop_total post st2 Hinv2) as [st3 H3].
  exists (authors st3), (length (authors st1)).
  unfold reconcile. rewrite reconcileLoop_app, H1. cbn [reconcileLoop]. rewrite H2, H3.
  split; [done |]. split; [done |].
  eapply (reconcileLoop_keeps
            (fun s => authors s !! length (authors st1)
                      = Some (mkAuthor "" "" [e] 0 0)) post);
    [| exact Hinv2 | | exact H3].
  - intros s s' e' m _ [_ Hnames] Hs Hstep.
    destruct (reconcileStep_cases _ _ _ _ Hstep)
      as [_ -> | i a _ Hne Hn Hi -> | _ _ ->]; cbn [authors]; [done | |].
    + rewrite list_lookup_insert_ne; [done |].
      intros ->. destruct (Hnames m _ Hn) as (b & Hb & Hname).
      rewrite Hs in Hb. injection Hb as <-. by cbn in Hname.
    + rewrite lookup_app_l; [done | by eapply lookup_lt_Some].
  - destruct (reconcileStep_cases _ _ _ _ H2)
      as [Hin _ | i a _ Hne _ _ _ | _ _ ->]; [done | done |].
    cbn [authors]. by rewrite list_lookup_middle.
Qed.

Lemma reconcile_empty_name_witness :
  ∃ res j,
    reconcile (getAuthors "Bob <bob@x.com>")
      (map_to_list (allAuthors ∅ ("h1 a@x.com " ++ LF ++ "h2 b@x.com ")))
    = Some res
    ∧ (length (getAuthors "Bob <bob@x.com>") <= j)%nat
    ∧ res !! j = Some (mkAuthor "" "" ["a@x.com"] 0 0).
Proof.
  apply (reconcile_empty_name _
           (allAuthors ∅ ("h1 a@x.com " ++ LF ++ "h2 b@x.com "))).
  - unfold rangeOrder. reflexivity.
  - reflexivity.
  - vm_compute. intros H. apply list_elem_of_singleton in H. discriminate.
Defined.

(** *** One Contributor for a name *)

Lemma grouped_step (all : gmap string string) (roster : list author)
    (st st' : recState) (e' m : string) :
  all !! e' = Some m → grouped all roster st →
  reconcileStep st (e', m) = Some st' → grouped all roster st'.
Proof.
  intros Hall Hg Hstep e n He Hn Hnew Hin.
  destruct (reconcileStep_cases _ _ _ _ Hstep)
    as [_ -> | i a Hnot Hne Hm Hi -> | Hnot Hm ->]; cbn [authors listed names] in *.
  - by apply Hg.
  - apply elem_of_union in Hin as [Hin | Hin].
    + apply elem_of_singleton in Hin as ->.
      assert (n = m) as -> by congruence.
      exists i. eexists. split; [done |].
      rewrite list_lookup_insert_eq by (by eapply lookup_lt_Some).
      split; [done |]. cbn [emails set_emails]. apply elem_of_app. right. by left.
    + destruct (Hg e n He Hn Hnew Hin) as (i0 & a0 & Hi0 & Ha0 & He0).
      exists i0. destruct (decide (i = i0)) as [->|Hii].
      * rewrite Hi in Ha0. injection Ha0 as <-. eexists. split; [done |].
        rewrite list_lookup_insert_eq by (by eapply lookup_lt_Some).
        split; [done |]. cbn [emails set_emails]. apply elem_of_app. by left.
      * exists a0. by rewrite list_lookup_insert_ne.
  - apply elem_of_union in Hin as [Hin | Hin].
    + apply elem_of_singleton in Hin as ->.
      assert (n = m) as -> by congruence.
      exists (length (authors st)). eexists.
      rewrite lookup_insert_eq, list_lookup_middle by done.
      split; [done |]. split; [done |]. by left.
    + destruct (Hg e n He Hn Hnew Hin) as (i0 & a0 & Hi0 & Ha0 & He0).
      exists i0, a0. split.
      * rewrite lookup_insert_ne; [done |].
        intros ->. destruct Hm as [Hm | Hm]; congruence.
      * split; [| done].
        rewrite lookup_app_l; [done | by eapply lookup_lt_Some].
Qed.

(** X9. Two emails that the roster does not list and that the history
    discovers with the same non-empty name end in the emails of one and the
    same Contributor, which bears that name, in whatever order the map is
    visited and whether the name is in the roster or new. *)
Theorem reconcile_same_name (roster : list author) (all : gmap string string)
    (entries : list (string * string)) (e1 e2 n : string) :
  rangeOrder all entries →
  all !! e1 = Some n → all !! e2 = Some n → n ≠ "" →
  e1 ∉ allEmails roster → e2 ∉ allEmails roster →
  ∃ res i c, reconcile roster entries = Some res
             ∧ res !! i = Some c ∧ name c = n
             ∧ e1 ∈ emails c ∧ e2 ∈ emails c.
Proof.
  intros Horder H1 H2 Hn Hnew1 Hnew2. unfold rangeOrder in Horder.
  destruct (reconcile_total roster entries) as (st & Hloop & Hrec).
  destruct (reconcileLoop_keeps (grouped all roster) entries)
    with (st := initRec roster) (st' := st) as [Hinv Hg];
    [| apply initRec_inv | | done |].
  { intros s s' e m Hem _ Hs Hstep. eapply grouped_step; [| done | done].
    apply elem_of_map_to_list. by rewrite <- Horder. }
  { intros e n' _ _ Hnew Hin. by apply initRec_listed in Hin. }
  destruct (reconcileLoop_listed _ _ _ Hloop) as [_ Hall].
  destruct (Hg e1 n H1 Hn Hnew1) as (i & a & Hi & Ha & He1).
  { apply (Hall e1 n). rewrite Horder. by apply elem_of_map_to_list. }
  destruct (Hg e2 n H2 Hn Hnew2) as (i' & a' & Hi' & Ha' & He2).
  { apply (Hall e2 n). rewrite Horder. by apply elem_of_map_to_list. }
  rewrite Hi in Hi'. injection Hi' as <-. rewrite Ha in Ha'. injection Ha' as <-.
  exists (authors st), i, a. split; [done |]. split; [done |].
  destruct (inv_names _ Hinv n i Hi) as (b & Hb & Hname).
  rewrite Ha in Hb. injection Hb as <-. done.
Qed.

Lemma reconcile_same_name_witness :
  ∃ res i c,
    reconcile (getAuthors "")
      (map_to_list (allAuthors ∅ ("h1 a@x.com Alice" ++ LF ++ "h2 b@x.com Alice")))
    = Some res
    ∧ res !! i = Some c ∧ name c = "Alice"
    ∧ "a@x.com" ∈ emails c ∧ "b@x.com" ∈ emails c.
Proof.
  apply (reconcile_same_name _
           (allAuthors ∅ ("h1 a@x.com Alice" ++ LF ++ "h2 b@x.com Alice"))).
  - unfold rangeOrder. reflexivity.
  - reflexivity.
  - reflexivity.
  - discriminate.
  - vm_compute. apply not_elem_of_nil.
  - vm_compute. apply not_elem_of_nil.
Defined.

Lemma namesCover_freshNames_step (L : nat) (st st' : recState) (e n : string) :
  namesCover st ∧ freshNames L (authors st) →
  reconcileStep st (e, n) = Some st' →
  namesCover st' ∧ freshNames L (authors st').
Proof.
  intros [Hcov Hfresh] Hstep.
  destruct (reconcileStep_cases _ _ _ _ Hstep)
    as [_ -> | i a Hnot Hne Hn Hi -> | Hnot Hn ->]; [done | |].
  - assert (Hlook : ∀ j b, <[i := set_emails a (emails a ++ [e])]> (authors st) !! j
                           = Some b →
                           ∃ b0, authors st !! j = Some b0 ∧ name b0 = name b).
    { intros j b Hj. apply list_lookup_insert_Some in Hj
        as [(<- & <- & _) | [_ Hj]]; eauto. }
    split.
    + intros b Hb. cbn [authors names] in *.
      apply list_elem_of_lookup in Hb as [j Hj].
      destruct (Hlook j b Hj) as (b0 & Hb0 & <-).
      apply Hcov, list_elem_of_lookup. eauto.
    + intros j k x y HL Hj Hk Hname Hne'. cbn [authors] in *.
      destruct (Hlook j x Hj) as (x0 & Hx0 & Hnx).
      destruct (Hlook k y Hk) as (y0 & Hy0 & Hny).
      apply (Hfresh j k x0 y0); congruence.
  - split.
    + intros b Hb. cbn [authors names] in *.
      apply elem_of_app in Hb as [Hb | Hb].
      * destruct (decide (n = name b)) as [->|Hnb].
        -- rewrite lookup_insert_eq. eauto.
        -- rewrite lookup_insert_ne by done. by apply Hcov.
      * apply list_elem_of_singleton in Hb as ->. cbn [name].
        rewrite lookup_insert_eq. eauto.
    + intros j k x y HL Hj Hk Hname Hne'. cbn [authors] in *.
      assert (Hold : ∀ z, z ∈ authors st → name z = n → n = "").
      { intros z Hz <-. destruct (Hcov z Hz) as [i Hi].
        destruct Hn as [Hn | Hn]; [congruence | done]. }
      apply lookup_snoc_Some in Hj as [[_ Hj] | [-> <-]];
        apply lookup_snoc_Some in Hk as [[Hlk Hk] | [-> <-]].
      * by apply (Hfresh j k x y).
      * cbn [name] in *. exfalso. apply Hne'. rewrite <- Hname.
        apply (Hold x); [apply list_elem_of_lookup; eauto | done].
      * cbn [name] in *. exfalso. apply Hne'.
        apply (Hold y); [apply list_elem_of_lookup; eauto | done].
      * done.
Qed.

(** X10. Reconciliation never creates a second Contributor for a name: a
    Contributor that it appends with a non-empty name is the only
    Contributor of that name in the result, among those of the roster and
    among those it creates. *)
Theorem reconcile_created_names (roster : list author)
    (entries : list (string * string)) :
  ∃ res, reconcile roster entries = Some res
         ∧ ∀ j k a b, (length roster <= j)%nat →
                      res !! j = Some a → res !! k = Some b →
                      name b = name a → name a ≠ "" → k = j.
Proof.
  destruct (reconcile_total roster entries) as (st & Hloop & Hrec).
  exists (authors st). split; [done |].
  eapply (reconcileLoop_keeps
            (fun s => namesCover s ∧ freshNames (length roster) (authors s)));
    [| apply initRec_inv | | exact Hloop].
  - intros s s' e n _ _ Hs Hstep. by eapply namesCover_freshNames_step.
  - split.
    + intros a Ha. rewrite initRec_authors in Ha.
      pose proof (indexRoster_names_is_Some roster 0 ∅ ∅ (name a)) as H.
      unfold initRec. destruct (indexRoster 0 roster ∅ ∅). simpl in *.
      apply H. left. by exists a.
    + intros j k a b HL Hj. rewrite initRec_authors in Hj.
      apply lookup_lt_Some in Hj. lia.
Qed.

(** ** More on the contribution counter *)

Lemma foldl_insert_lookup (es : list string) (idx : gmap string nat) (i : nat)
    (e : string) :
  foldl (fun m e => <[e := i]> m) idx es !! e
  = if decide (e ∈ es) then Some i else idx !! e.
Proof.
  revert idx. induction es as [|x es IH]; intros idx; cbn [foldl].
  - destruct (decide (e ∈ [])) as [H | _]; [by apply elem_of_nil in H | done].
  - rewrite IH. destruct (decide (e ∈ es)) as [Hin | Hnot].
    + destruct (decide (e ∈ x :: es)) as [_ | H]; [done |].
      exfalso. apply H. by right.
    + destruct (decide (x = e)) as [->|Hne].
      * rewrite lookup_insert_eq.
        destruct (decide (e ∈ e :: es)) as [_ | H]; [done |].
        exfalso. apply H. by left.
      * rewrite lookup_insert_ne by done.
        destruct (decide (e ∈ x :: es)) as [H | _]; [| done].
        apply elem_of_cons in H as [-> | H]; done.
Qed.

Lemma emailIndex_lookup (l : list author) (k : nat) (idx : gmap string nat)
    (e : string) (i : nat) :
  emailIndex k l idx !! e = Some i
  ↔ (∃ j a, l !! j = Some a ∧ e ∈ emails a ∧ i = (k + j)%nat
            ∧ ∀ j' a', l !! j' = Some a' → e ∈ emails a' → (j' <= j)%nat)
    ∨ ((∀ a, a ∈ l → e ∉ emails a) ∧ idx !! e = Some i).
Proof.
  revert k idx. induction l as [|a l IH]; intros k idx; cbn [emailIndex].
  - split.
    + intros H. right. split; [| done]. intros a Ha. by apply elem_of_nil in Ha.
    + intros [(j & a & H & _) | [_ H]]; done.
  - rewrite IH, foldl_insert_lookup. clear IH. split.
    + intros [(j & b & Hj & Hb & -> & Hlast) | [Hno Hidx]].
      * left. exists (S j), b. split; [done |]. split; [done |].
        split; [lia |]. intros [|j'] a' Hj' Ha'; [lia |].
        simpl in Hj'. specialize (Hlast j' a' Hj' Ha'). lia.
      * destruct (decide (e ∈ emails a)) as [Hin | Hnot].
        -- left. exists 0%nat, a. split; [done |]. split; [done |].
           split; [injection Hidx; lia |].
           intros [|j'] a' Hj' Ha'; [lia |]. simpl in Hj'.
           exfalso. apply (Hno a'); [| done]. apply list_elem_of_lookup. eauto.
        -- right. split; [| done].
           intros b Hb. apply elem_of_cons in Hb as [-> | Hb]; [done | by apply Hno].
    + intros [(j & b & Hj & Hb & -> & Hlast) | [Hno Hidx]].
      * destruct j as [|j]; simpl in Hj.
        -- injection Hj as ->. right. split.
           ++ intros a' Ha' He'. apply list_elem_of_lookup in Ha' as [j' Hj'].
              specialize (Hlast (S j') a' Hj' He'). lia.
           ++ rewrite decide_True by done. f_equal. lia.
        -- left. exists j, b. split; [done |]. split; [done |].
           split; [lia |]. intros j' a' Hj' Ha'.
           specialize (Hlast (S j') a' Hj' Ha'). lia.
      * right. split.
        -- intros b Hb. apply Hno. by right.
        -- rewrite decide_False; [done |]. apply Hno. by left.
Qed.

(** X11. The index of the counter maps an email to the last Contributor
    that lists it: when an email is listed twice, the later Contributor is
    credited; an email that no Contributor lists is not in the index. *)
Theorem emailIndex_last (l : list author) (e : string) (i : nat) :
  emailIndex 0 l ∅ !! e = Some i
  ↔ ∃ a, l !! i = Some a ∧ e ∈ emails a
         ∧ ∀ j b, l !! j = Some b → e ∈ emails b → (j <= i)%nat.
Proof.
  rewrite emailIndex_lookup. split.
  - intros [(j & a & Hj & Ha & -> & Hlast) | [_ H]]; [| done]. by exists a.
  - intros (a & Hi & Ha & Hlast). left. by exists i, a.
Qed.

Lemma wrapInt_small (z : Z) : - 2 ^ 63 <= z < 2 ^ 63 → wrapInt z = z.
Proof. intros H. unfold wrapInt. rewrite Z.mod_small; lia. Qed.

Lemma credited_cons (emailIdx : gmap string nat) (i : nat) (line : string)
    (lines : list string) :
  credited emailIdx i (line :: lines)
  = ((if decide (emailIdx !! line = Some i) then 1 else 0)
     + credited emailIdx i lines)%nat.
Proof.
  unfold credited. destruct (decide (emailIdx !! line = Some i)) as [H | H].
  - by rewrite filter_cons_True.
  - by rewrite filter_cons_False.
Qed.

Lemma set_commits_set_commits (a : author) (x y : Z) :
  set_commits (set_commits a x) y = set_commits a y.
Proof. reflexivity. Qed.

Lemma countLines_spec (emailIdx : gmap string nat) (lines : list string)
    (authors : list author) :
  (∀ e i, emailIdx !! e = Some i → (i < length authors)%nat) →
  (∀ a, a ∈ authors →
        0 <= commits a ∧ commits a + Z.of_nat (length lines) < 2 ^ 63) →
  ∃ res, countLines emailIdx authors lines = Some res
         ∧ length res = length authors
         ∧ ∀ i a, authors !! i = Some a →
                  res !! i
                  = Some (set_commits a
                            (commits a + Z.of_nat (credited emailIdx i lines))).
Proof.
  revert authors. induction lines as [|line lines IH]; intros authors Hidx Hb;
    cbn [countLines].
  - exists authors. split; [done |]. split; [done |].
    intros i a Ha. rewrite Ha. destruct a. unfold set_commits, credited. simpl.
    do 2 f_equal. lia.
  - unfold countLine. destruct (emailIdx !! line) as [j|] eqn:Hj.
    + destruct (lookup_lt_is_Some_2 authors j (Hidx _ _ Hj)) as [b Hbj]. rewrite Hbj.
      assert (Hb' : 0 <= commits b ∧ commits b + Z.of_nat (length (line :: lines)) < 2 ^ 63).
      { apply Hb, list_elem_of_lookup. eauto. }
      cbn [length] in Hb'.
      rewrite wrapInt_small by lia.
      destruct (IH (<[j := set_commits b (commits b + 1)]> authors))
        as (res & Hres & Hlen & Hall).
      * intros e i. rewrite length_insert. apply Hidx.
      * intros a Ha. apply list_elem_of_lookup in Ha as [i Hi].
        apply list_lookup_insert_Some in Hi as [(<- & <- & _) | [_ Hi]].
        -- cbn [commits set_commits]. lia.
        -- assert (Ha : 0 <= commits a
                         ∧ commits a + Z.of_nat (length (line :: lines)) < 2 ^ 63).
           { apply Hb, list_elem_of_lookup. eauto. }
           cbn [length] in Ha. lia.
      * exists res. split; [done |]. split; [by rewrite Hlen, length_insert |].
        intros i a Ha. rewrite credited_cons.
        destruct (decide (j = i)) as [->|Hji].
        -- rewrite Hbj in Ha. injection Ha as ->.
           rewrite (Hall i (set_commits a (commits a + 1)))
             by (apply list_lookup_insert_eq; by eapply lookup_lt_Some).
           rewrite decide_True by done. rewrite set_commits_set_commits.
           cbn [commits set_commits]. do 2 f_equal. lia.
        -- rewrite (Hall i a) by (by rewrite list_lookup_insert_ne).
           rewrite decide_False by congruence. do 2 f_equal.
    + destruct (IH authors Hidx) as (res & Hres & Hlen & Hall).
      * intros a Ha. specialize (Hb a Ha). cbn [length] in Hb. lia.
      * exists res. split; [done |]. split; [done |].
        intros i a Ha. rewrite credited_cons, decide_False by congruence.
        by apply Hall.
Qed.

(** X12. The counter changes nothing but the commits and the geekrank:
    each Contributor keeps its place, name, nickname and emails, its commits
    grow by the number of lines of the log that the index credits to it
    (lines that match no email are ignored), and its geekrank is computed
    from the new commits.  (The bound keeps Go's [int] from wrapping.) *)
Theorem getContributions_counts (intLog2 : Z -> Z) (buf : string)
    (authors : list author) :
  (∀ a, a ∈ authors →
        0 <= commits a
        ∧ commits a + Z.of_nat (length (Str.Split "010" buf)) < 2 ^ 63) →
  ∃ res, getContributions intLog2 buf authors = Some res
         ∧ length res = length authors
         ∧ ∀ i a, authors !! i = Some a →
             res !! i
             = Some (let n := commits a
                              + Z.of_nat (credited (emailIndex 0 authors ∅) i
                                            (Str.Split "010" buf)) in
                     mkAuthor (name a) (nickname a) (emails a) n (intLog2 n)).
Proof.
  intros Hb. unfold getContributions.
  destruct (countLines_spec (emailIndex 0 authors ∅) (Str.Split "010" buf) authors)
    as (counted & -> & Hlen & Hall); [| done |].
  - apply (emailIndex_bound authors 0 ∅); [simpl; lia |]. intros e i H. done.
  - exists (map (rank intLog2) counted). split; [done |].
    split; [by rewrite length_map |].
    intros i a Ha. change (map (rank intLog2) counted) with (rank intLog2 <$> counted).
    rewrite list_lookup_fmap, (Hall i a Ha). reflexivity.
Qed.

Lemma getContributions_counts_witness :
  ∃ res,
    getContributions Z.log2 ("a@x.com" ++ LF ++ "zed@x.com" ++ LF ++ "a2@x.com")
      [mkAuthor "Alice" "" ["a@x.com"; "a2@x.com"] 0 0] = Some res
    ∧ length res = 1%nat
    ∧ ∀ i a, [mkAuthor "Alice" "" ["a@x.com"; "a2@x.com"] 0 0] !! i = Some a →
        res !! i
        = Some (let n := commits a
                         + Z.of_nat
                             (credited
                                (emailIndex 0
                                   [mkAuthor "Alice" "" ["a@x.com"; "a2@x.com"] 0 0] ∅)
                                i
                                (Str.Split "010"
                                   ("a@x.com" ++ LF ++ "zed@x.com" ++ LF ++ "a2@x.com"))) in
                mkAuthor (name a) (nickname a) (emails a) n (Z.log2 n)).
Proof.
  apply getContributions_counts. intros a Ha.
  apply list_elem_of_singleton in Ha as ->. vm_compute. split; [discriminate | reflexivity].
Defined.

(** X13. When no email is listed twice (as after reconciliation of a roster
    without repeated emails), the lines that the index credits to a
    Contributor are exactly the lines that are one of its emails. *)
Theorem credited_own_emails (authors : list author) (i : nat) (a : author)
    (lines : list string) :
  NoDup (allEmails authors) →
  authors !! i = Some a →
  credited (emailIndex 0 authors ∅) i lines
  = length (filter (fun line => line ∈ emails a) lines).
Proof.
  intros Hnd Ha. unfold credited. f_equal. apply list_filter_iff. intros line.
  rewrite emailIndex_lookup. split.
  - intros [(j & b & Hj & Hb & Hi & _) | [_ H]]; [| done].
    simpl in Hi. subst j. congruence.
  - intros Hin. left. exists i, a. split; [done |]. split; [done |].
    split; [done |]. intros j b Hj Hb.
    assert (j = i) by (by eapply (NoDup_allEmails_unique authors Hnd line j i b a)).
    lia.
Qed.

Lemma credited_own_emails_witness :
  credited (emailIndex 0 [mkAuthor "Alice" "" ["a@x.com"; "a2@x.com"] 0 0] ∅) 0
    ["a@x.com"; "zed@x.com"; "a2@x.com"]
  = length (filter (fun line => line ∈ ["a@x.com"; "a2@x.com"])
              ["a@x.com"; "zed@x.com"; "a2@x.com"]).
Proof.
  apply (credited_own_emails _ 0 (mkAuthor "Alice" "" ["a@x.com"; "a2@x.com"] 0 0)).
  - vm_compute. repeat (apply NoDup_cons; split;
      [intros H; repeat (apply elem_of_cons in H as [H | H]; [discriminate |]);
       by apply elem_of_nil in H |]).
    apply NoDup_nil_2.
  - reflexivity.
Defined.

(** ** More on the filter stage *)

Lemma Contains_empty (s : string) : Str.Contains s "" = true.
Proof. apply Contains_spec. by exists "", s. Qed.

(** X14. With the empty exclude pattern every Contributor is removed,
    whatever its commits: every name contains the empty string. *)
Theorem filterStage_empty_pattern (min : Z) (l : list author) :
  filterStage "" min l = [].
Proof.
  rewrite filterStage_filter. induction l as [|a l IH]; [done |].
  cbn [List.filter]. unfold kept at 1, removed. by rewrite Contains_empty.
Qed.

(** ** More on the sort stage *)

Lemma less_trans {A} (less : A → A → bool) :
  (∀ x y, less x y = true → less y x = false) →
  (∀ x y z, less y x = false → less z y = false → less z x = false) →
  ∀ x y z, less x y = true → less y z = true → less x z = true.
Proof.
  intros Hasym Hneg x y z Hxy Hyz.
  destruct (less x z) eqn:Hxz; [done |].
  assert (Hyx : less y x = false) by (by apply Hasym).
  rewrite (Hneg z x y Hxz Hyx) in Hyz. done.
Qed.

Lemma byGeekrankLess_asym (x y : author) :
  byGeekrankLess x y = true → byGeekrankLess y x = false.
Proof. unfold byGeekrankLess. rewrite Z.ltb_lt, Z.ltb_ge. lia. Qed.

Lemma byGeekrankLess_negtrans (x y z : author) :
  byGeekrankLess y x = false → byGeekrankLess z y = false →
  byGeekrankLess z x = false.
Proof. unfold byGeekrankLess. rewrite !Z.ltb_ge. lia. Qed.

(** X15. The two orderings given to [sort.Sort] are strict weak orderings,
    as [sort.Interface] requires of [Less]: no element is before itself,
    both are transitive, and so is "neither is before the other" (for
    [byName], whatever the lower-casing function). *)
Theorem Less_strict_weak (ToLower : string -> string) (less : author -> author -> bool) :
  less = byNameLess ToLower ∨ less = byGeekrankLess →
  (∀ x, less x x = false)
  ∧ (∀ x y z, less x y = true → less y z = true → less x z = true)
  ∧ (∀ x y z, less y x = false → less z y = false → less z x = false).
Proof.
  intros Hless.
  assert (H : (∀ x y, less x y = true → less y x = false)
              ∧ ∀ x y z, less y x = false → less z y = false → less z x = false).
  { destruct Hless as [-> | ->]; split.
    - apply byNameLess_asym.
    - apply byNameLess_negtrans.
    - apply byGeekrankLess_asym.
    - apply byGeekrankLess_negtrans. }
  destruct H as [Hasym Hneg]. split; [| split; [by apply less_trans | done]].
  intros x. destruct (less x x) eqn:Hx; [| done].
  by rewrite (Hasym x x Hx) in Hx.
Qed.

Lemma Less_strict_weak_witness :
  (∀ x, byGeekrankLess x x = false)
  ∧ (∀ x y z, byGeekrankLess x y = true → byGeekrankLess y z = true →
              byGeekrankLess x z = true)
  ∧ (∀ x y z, byGeekrankLess y x = false → byGeekrankLess z y = false →
              byGeekrankLess z x = false).
Proof. apply (Less_strict_weak Sort.lowerAscii byGeekrankLess). by right. Defined.

Section SortStageMore.

Variable ToLower : string -> string.

(** The sort stage has a result in either mode. *)
Lemma sortStage_exists (geekrankFlag : bool) (l : list author) :
  sortStage ToLower geekrankFlag l
    (if geekrankFlag
     then Sort.insertionSort byGeekrankLess
            (Sort.insertionSort (byNameLess ToLower) l)
     else Sort.insertionSort (byNameLess ToLower) l).
Proof.
  exists (Sort.insertionSort (byNameLess ToLower) l). split.
  - apply insertionSort_sorts; [apply byNameLess_asym | apply byNameLess_negtrans].
  - destruct geekrankFlag; [| done].
    apply insertionSort_sorts; [apply byGeekrankLess_asym | apply byGeekrankLess_negtrans].
Qed.

(** X16. With [-geekrank], for every adjacent pair [(A, B)] of the sorted
    sequence the geekrank of [A] is at least that of [B], whatever result
    [sort.Sort] picks: the second sort decides the order. *)
Theorem sortStage_geekrank_adjacent (l out : list author) (i : nat) (a b : author) :
  sortStage ToLower true l out →
  out !! i = Some a → out !! S i = Some b →
  geekrank b <= geekrank a.
Proof.
  intros (mid & _ & [_ Hs]) Ha Hb.
  specialize (Hs i (S i) a b (Nat.lt_succ_diag_r i) Ha Hb).
  unfold byGeekrankLess in Hs. by apply Z.ltb_ge in Hs.
Qed.

End SortStageMore.

Lemma sortStage_geekrank_adjacent_witness : (1 <= 3)%Z.
Proof.
  apply (sortStage_geekrank_adjacent Sort.lowerAscii
           [mkAuthor "Al" "" [] 2 1; mkAuthor "Bo" "" [] 9 3]
           (Sort.insertionSort byGeekrankLess
              (Sort.insertionSort (byNameLess Sort.lowerAscii)
                 [mkAuthor "Al" "" [] 2 1; mkAuthor "Bo" "" [] 9 3]))
           0 (mkAuthor "Bo" "" [] 9 3) (mkAuthor "Al" "" [] 2 1)).
  - apply (sortStage_exists Sort.lowerAscii true).
  - reflexivity.
  - reflexivity.
Defined.

(** ** The roster that [-authors] prints *)

(** A byte below 128, or none, at the head of [t]: it completes no
    white-space rune begun before it. *)
Definition asciiHead (t : string) : Prop :=
  match t with
  | EmptyString => True
  | String b _ => (N_of_ascii b < 128)%N
  end.

Lemma spaceWidth_context (a : ascii) (s t : string) :
  asciiHead t →
  Str.spaceWidth (String a s ++ t) = Str.spaceWidth (String a s).
Proof.
  intros Ht.
  destruct a as [[] [] [] [] [] [] [] []]; try reflexivity;
    (destruct s as [|b [|c s]]; [| | reflexivity]);
    destruct t as [|x t]; try reflexivity;
    cbn [asciiHead] in Ht;
    (destruct t as [|y t]; try reflexivity);
    cbn -[N.eqb N.leb N_of_ascii];
    generalize dependent (N_of_ascii x); intros nx Ht;
    try generalize (N_of_ascii y); try generalize (N_of_ascii b); intros;
    cbn -[N.eqb N.leb];
    repeat match goal with
           | |- context [(nx =? ?k)%N] =>
               destruct (N.eqb_spec nx k) as [? | _]; [lia |]
           | |- context [(?k <=? nx)%N] =>
               destruct (N.leb_spec k nx) as [? | _]; [lia |]
           end;
    cbn -[N.eqb N.leb]; rewrite ?andb_false_r; reflexivity.
Qed.

Lemma fieldsAux_nil (cur : list ascii) : Str.fieldsAux 0 cur "" = flush cur.
Proof. reflexivity. Qed.

Lemma fieldsAux_cons (cur : list ascii) (a : ascii) (s : string) :
  Str.fieldsAux 0 cur (String a s)
  = match Str.spaceWidth (String a s) with
    | O => Str.fieldsAux 0 (a :: cur) s
    | S k => (flush cur ++ Str.fieldsAux k [] s)%list
    end.
Proof. reflexivity. Qed.

Lemma fieldsAux_word (w t : string) (cur : list ascii) :
  noWhite w = true → asciiHead t →
  Str.fieldsAux 0 cur (w ++ t) = Str.fieldsAux 0 (rev (bytes w) ++ cur) t.
Proof.
  revert cur. induction w as [|a w IH]; intros cur Hw Ht; [done |].
  cbn [noWhite] in Hw. apply andb_true_iff in Hw as [Hsw Hw].
  apply Nat.eqb_eq in Hsw.
  change (String a w ++ t) with (String a (w ++ t)).
  rewrite fieldsAux_cons.
  change (String a (w ++ t)) with (String a w ++ t).
  rewrite spaceWidth_context, Hsw by done.
  rewrite IH by done. cbn [bytes list_ascii_of_string rev].
  f_equal. by rewrite <- app_assoc.
Qed.

Lemma flush_word (w : string) : w ≠ "" → flush (rev (bytes w)) = [w].
Proof.
  intros Hw. unfold flush.
  destruct (rev (bytes w)) as [|x l] eqn:Hrev.
  - apply (f_equal (@rev ascii)) in Hrev. rewrite rev_involutive in Hrev.
    destruct w; [done | discriminate].
  - rewrite <- Hrev, rev_involutive. f_equal.
    apply string_of_list_ascii_of_string.
Qed.

(** The fields of words joined by single spaces are the words. *)
Lemma Fields_Join (ws : list string) :
  Forall (fun w => w ≠ "" ∧ noWhite w = true) ws →
  Str.Fields (Str.Join " " ws) = ws.
Proof.
  unfold Str.Fields. induction ws as [|w ws IH]; intros Hall; [done |].
  apply Forall_cons in Hall as [[Hne Hw] Hall].
  destruct ws as [|w2 ws].
  - cbn [Str.Join]. rewrite <- (append_nil_r w) at 1.
    rewrite fieldsAux_word, app_nil_r, fieldsAux_nil by done.
    by apply flush_word.
  - change (Str.Join " " (w :: w2 :: ws))
      with (w ++ String " " (Str.Join " " (w2 :: ws))).
    rewrite fieldsAux_word, app_nil_r by (done || (cbn; lia)).
    rewrite fieldsAux_cons.
    change (Str.spaceWidth (String " " (Str.Join " " (w2 :: ws)))) with 1%nat.
    cbv iota. rewrite flush_word by done. rewrite IH by done. done.
Qed.

Lemma noWhite_app (s t : string) :
  noWhite s = true → noWhite t = true → asciiHead t → noWhite (s ++ t) = true.
Proof.
  intros Hs Ht Hh. induction s as [|a s IH]; [done |].
  cbn [noWhite] in Hs. apply andb_true_iff in Hs as [Hsw Hs].
  change (String a s ++ t) with (String a (s ++ t)). cbn [noWhite].
  change (String a (s ++ t)) with (String a s ++ t).
  rewrite spaceWidth_context, Hsw by done. by apply IH.
Qed.

Lemma noWhite_bytes (s : string) :
  noWhite s = true → Forall (fun a => Str.isAsciiSpace a = false) (bytes s).
Proof.
  induction s as [|a s IH]; intros Hs; [constructor |].
  cbn [noWhite] in Hs. apply andb_true_iff in Hs as [Hsw Hs].
  constructor; [| by apply IH].
  apply Nat.eqb_eq in Hsw. unfold Str.spaceWidth in Hsw.
  by destruct (Str.isAsciiSpace a).
Qed.

Lemma noWhite_noSpace (s : string) : noWhite s = true → noSpace s.
Proof.
  intros Hs. eapply Forall_impl; [by apply noWhite_bytes |].
  apply reSpace_asciiSpace.
Qed.

Lemma noWhite_paren (k : string) :
  noWhite k = true → noWhite (String "(" (k ++ ")")) = true.
Proof.
  intros Hk. cbn [noWhite].
  assert (H : Str.spaceWidth (String "(" (k ++ ")")) = 0%nat) by reflexivity.
  rewrite H. apply noWhite_app; [done | reflexivity | cbn; lia].
Qed.

Lemma noWhite_angle (e : string) :
  noWhite e = true → noWhite (String "<" (e ++ ">")) = true.
Proof.
  intros He. cbn [noWhite].
  assert (H : Str.spaceWidth (String "<" (e ++ ">")) = 0%nat) by reflexivity.
  rewrite H. apply noWhite_app; [done | reflexivity | cbn; lia].
Qed.

Lemma greedy_snoc (c c' : ascii) (s : string) :
  c' ≠ c → Re.greedy c (s ++ String c' "") = Re.greedy c s.
Proof.
  intros Hc. induction s as [|a s IH].
  - cbn. destruct (Ascii.eqb_spec c' c) as [? | _]; [done |].
    by destruct (Re.isSpace c').
  - change (String a s ++ String c' "") with (String a (s ++ String c' "")).
    cbn [Re.greedy]. by rewrite IH.
Qed.

Lemma find_snoc (o c c' : ascii) (s : string) :
  c' ≠ c → c' ≠ o → Re.find o c (s ++ String c' "") = Re.find o c s.
Proof.
  intros Hc Ho. induction s as [|a s IH].
  - cbn. by destruct (Ascii.eqb_spec c' o).
  - change (String a s ++ String c' "") with (String a (s ++ String c' "")).
    cbn [Re.find]. by rewrite IH, greedy_snoc.
Qed.

Lemma nicknameRe_paren (k : string) :
  noSpace k → Re.nicknameRe (String "(" (k ++ ")")) = Some k.
Proof.
  intros Hk. apply find_Some.
  - unfold noSpace. cbn [bytes list_ascii_of_string]. constructor; [done |].
    rewrite bytes_app. apply Forall_app. split; [done |]. by repeat constructor.
  - exists "", "". split; [done |]. split; apply not_elem_of_nil.
Qed.

Lemma emailRe_angle (e : string) :
  noSpace e → Re.emailRe (String "<" (e ++ ">")) = Some e.
Proof.
  intros He. apply find_Some.
  - unfold noSpace. cbn [bytes list_ascii_of_string]. constructor; [done |].
    rewrite bytes_app. apply Forall_app. split; [done |]. by repeat constructor.
  - exists "", "". split; [done |]. split; apply not_elem_of_nil.
Qed.

Lemma nicknameRe_angle (e : string) :
  Re.nicknameRe (String "<" (e ++ ">")) = Re.nicknameRe e.
Proof.
  unfold Re.nicknameRe. cbn [Re.find]. cbn [Ascii.eqb Bool.eqb].
  by apply find_snoc.
Qed.

Lemma filter_all (f : string → bool) (l : list string) :
  Forall (fun x => f x = true) l → List.filter f l = l.
Proof.
  induction 1 as [|x l Hx _ IH]; [done |]. cbn [List.filter]. by rewrite Hx, IH.
Qed.

Lemma filter_none (f : string → bool) (l : list string) :
  Forall (fun x => f x = false) l → List.filter f l = [].
Proof.
  induction 1 as [|x l Hx _ IH]; [done |]. cbn [List.filter]. by rewrite Hx, IH.
Qed.

Lemma omap_none {B} (f : string → option B) (l : list string) :
  Forall (fun x => f x = None) l → omap f l = [].
Proof.
  induction 1 as [|x l Hx _ IH]; [done |]. cbn [omap list_omap]. rewrite Hx.
  exact IH.
Qed.

Lemma omap_angle (es : list string) :
  Forall (fun e => noWhite e = true ∧ Re.nicknameRe e = None) es →
  omap emailGroup (map (fun e => String "<" (e ++ ">")) es) = es.
Proof.
  induction 1 as [|e es [He Hn] _ IH]; [done |].
  cbn [map omap list_omap]. unfold emailGroup at 1.
  rewrite nicknameRe_angle, Hn, emailRe_angle by (by apply noWhite_noSpace).
  f_equal. exact IH.
Qed.

(** The author that the parser reads from the fields of a printed line. *)
Lemma parseFields_tokens (nick : option string) (ws es : list string) :
  Forall plainWord ws →
  match nick with
  | Some k => noWhite k = true
  | None => True
  end →
  Forall (fun e => noWhite e = true ∧ Re.nicknameRe e = None) es →
  parseFields (tokens nick ws es) = mkAuthor (Str.Join " " ws) (default "" nick) es 0 0.
Proof.
  intros Hws Hnick Hes.
  rewrite parseFields_spec.
  - unfold tokens, nameOf, nicknameOf, emailsOf.
    rewrite !List.filter_app, !omap_app.
    rewrite (filter_all isPlain ws), (omap_none Re.nicknameRe ws),
      (omap_none emailGroup ws).
    + rewrite (omap_none Re.nicknameRe (map _ es)), omap_angle by
        (done || (apply Forall_map, Forall_forall; intros e He;
                  rewrite Forall_forall in Hes; destruct (Hes e He) as [_ Hn];
                  by rewrite nicknameRe_angle)).
      rewrite (filter_none isPlain (map _ es)).
      * destruct nick as [k|]; cbn [app omap list_omap List.filter].
        -- unfold isPlain, emailGroup.
           rewrite nicknameRe_paren by (by apply noWhite_noSpace).
           cbn. by rewrite !app_nil_r.
        -- cbn. by rewrite !app_nil_r.
      * apply Forall_map, Forall_forall. intros e He.
        rewrite Forall_forall in Hes. destruct (Hes e He) as [Hw Hn].
        unfold isPlain. rewrite nicknameRe_angle, Hn, emailRe_angle; [done |].
        by apply noWhite_noSpace.
    + eapply Forall_impl; [exact Hws |]. intros w (_ & _ & Hn & He).
      unfold emailGroup. by rewrite Hn.
    + eapply Forall_impl; [exact Hws |]. by intros w (_ & _ & Hn & _).
    + eapply Forall_impl; [exact Hws |]. intros w (_ & _ & Hn & He).
      unfold isPlain. by rewrite Hn, He.
  - unfold tokens. apply Forall_app. split; [| apply Forall_app; split].
    + eapply Forall_impl; [exact Hws |]. by intros w [? _].
    + destruct nick; by repeat constructor.
    + apply Forall_map, Forall_forall. by intros e _.
Qed.

Lemma concat_cons (x : string) (l : list string) :
  String.concat "" (x :: l) = x ++ String.concat "" l.
Proof. destruct l; [by rewrite append_nil_r | done]. Qed.

Lemma concat_app (l k : list string) :
  String.concat "" (l ++ k) = String.concat "" l ++ String.concat "" k.
Proof.
  induction l as [|x l IH]; [done |].
  change ((x :: l) ++ k)%list with (x :: (l ++ k))%list.
  by rewrite !concat_cons, IH, append_assoc.
Qed.

Lemma Join_cons_concat (sep y : string) (l : list string) :
  Str.Join sep (y :: l) = y ++ String.concat "" (map (fun x => sep ++ x) l).
Proof.
  revert y. induction l as [|x l IH]; intros y.
  - cbn. by rewrite append_nil_r.
  - change (Str.Join sep (y :: x :: l)) with (y ++ sep ++ Str.Join sep (x :: l)).
    rewrite IH. cbn [map]. by rewrite concat_cons, append_assoc.
Qed.

Section RenderProps.

Variable EqualFold : string -> string -> bool.

(** The nickname that [displayName] shows. *)
Lemma authorText_tokens (a : author) (w : string) (ws : list string) :
  name a = Str.Join " " (w :: ws) →
  authorText EqualFold a
  = Str.Join " "
      (tokens (if hasNickName EqualFold a then Some (nickname a) else None)
              (w :: ws) (emails a)).
Proof.
  intros Hname. unfold authorText, displayName, tokens.
  change (((w :: ws) ++ ?x)%list) with (w :: (ws ++ x))%list.
  rewrite Join_cons_concat, !map_app, !concat_app, map_map.
  rewrite Hname, Join_cons_concat.
  destruct (hasNickName EqualFold a); cbn [map String.concat];
    rewrite ?append_assoc; do 2 f_equal; cbn [String.append];
    rewrite ?append_assoc, ?append_nil_r; reflexivity.
Qed.

End RenderProps.

Lemma Split_sep (c : ascii) (s t : string) :
  c ∉ bytes s → Str.Split c (s ++ String c t) = s :: Str.Split c t.
Proof.
  induction s as [|a s IH]; intros Hs.
  - cbn. by rewrite Ascii.eqb_refl.
  - cbn [bytes list_ascii_of_string] in Hs. apply not_elem_of_cons in Hs as [Hne Hs].
    change (String a s ++ String c t) with (String a (s ++ String c t)).
    cbn [Str.Split]. destruct (Ascii.eqb_spec a c) as [-> | _]; [done |].
    by rewrite (IH Hs).
Qed.

Lemma Split_lines (contents : list string) :
  Forall (fun s => "010"%char ∉ bytes s) contents →
  Str.Split "010" (String.concat "" (map (fun s => s ++ LF) contents))
  = (contents ++ [""])%list.
Proof.
  induction 1 as [|s l Hs _ IH]; [done |].
  cbn [map]. rewrite concat_cons, append_assoc.
  change (LF ++ ?x) with (String "010" x).
  by rewrite Split_sep, IH.
Qed.

Lemma Join_bytes (c : ascii) (ws : list string) :
  c ≠ " "%char → Forall (fun w => c ∉ bytes w) ws → c ∉ bytes (Str.Join " " ws).
Proof.
  intros Hc. induction 1 as [|w ws Hw Hall IH]; [apply not_elem_of_nil |].
  destruct ws as [|w2 ws]; [done |].
  change (Str.Join " " (w :: w2 :: ws)) with (w ++ String " " (Str.Join " " (w2 :: ws))).
  rewrite bytes_app. cbn [bytes list_ascii_of_string].
  rewrite elem_of_app, elem_of_cons. intros [? | [? | ?]]; [done | done |].
  by apply IH.
Qed.

Lemma skipLine_Join (w : string) (ws : list string) :
  w ≠ "" → skipLine (Str.Join " " (w :: ws)) = skipLine w.
Proof.
  intros Hw. rewrite Join_cons_concat. by destruct w.
Qed.

Lemma noWhite_LF (s : string) : noWhite s = true → "010"%char ∉ bytes s.
Proof.
  intros Hs Hin. apply noWhite_bytes in Hs.
  rewrite Forall_forall in Hs. by specialize (Hs _ Hin).
Qed.

Section RoundTrip.

Variable EqualFold : string -> string -> bool.

(** The text printed for a printable author is one line that the parser
    does not skip and from which it reads the author back. *)
Lemma printable_text (a : author) :
  printable a →
  ("010"%char ∉ bytes (authorText EqualFold a))
  ∧ skipLine (authorText EqualFold a) = false
  ∧ parseFields (Str.Fields (authorText EqualFold a))
    = mkAuthor (name a)
               (if hasNickName EqualFold a then nickname a else "")
               (emails a) 0 0.
Proof.
  intros ((w & ws & Hname & Hws & Hskip) & Hnick & Hes).
  rewrite (authorText_tokens EqualFold a w ws Hname).
  set (nick := if hasNickName EqualFold a then Some (nickname a) else None).
  assert (Hnk : match nick with
                 | Some k => noWhite k = true
                 | None => True
                 end).
  { unfold nick. by destruct (hasNickName EqualFold a). }
  assert (Htok : Forall (fun t => t ≠ "" ∧ noWhite t = true)
                   (tokens nick (w :: ws) (emails a))).
  { unfold tokens. apply Forall_app. split; [| apply Forall_app; split].
    - eapply Forall_impl; [exact Hws |]. by intros t (? & ? & _).
    - destruct nick as [k|]; [| constructor].
      constructor; [| constructor]. split; [done | by apply noWhite_paren].
    - apply Forall_map, Forall_forall. intros e He.
      rewrite Forall_forall in Hes. destruct (Hes e He) as [Hw _].
      split; [done | by apply noWhite_angle]. }
  split; [| split].
  - apply Join_bytes; [done |].
    eapply Forall_impl; [exact Htok |]. intros t [_ Ht]. by apply noWhite_LF.
  - unfold tokens. change (((w :: ws) ++ ?x)%list) with (w :: (ws ++ x))%list.
    rewrite skipLine_Join; [done |].
    apply Forall_cons in Hws as [(? & _) _]. done.
  - rewrite (Fields_Join _ Htok), parseFields_tokens by done.
    rewrite <- Hname. unfold nick. by destruct (hasNickName EqualFold a).
Qed.

(** X18. The roster that [-authors] prints is read back by [getAuthors]:
    for printable authors (names made of plain words joined by single
    spaces and not starting with [#], nicknames and emails without white
    space, emails without a parenthesised group), parsing the printed text
    gives the same authors in the same order, with the same names and
    emails, the nickname that [displayName] shows (none when [hasNickName]
    is false), and commits and geekrank reset to zero. *)
Theorem printAuthors_getAuthors (authors : list author) :
  Forall printable authors →
  getAuthors (printAuthors EqualFold authors)
  = map (fun a => mkAuthor (name a)
                           (if hasNickName EqualFold a then nickname a else "")
                           (emails a) 0 0)
        authors.
Proof.
  intros Hall. rewrite getAuthors_map. unfold printAuthors, authorLine.
  rewrite <- (map_map (authorText EqualFold) (fun s => s ++ LF)).
  rewrite Split_lines.
  - rewrite List.filter_app. cbn [List.filter skipLine negb]. rewrite app_nil_r.
    induction Hall as [|a l Ha _ IH]; [done |].
    destruct (printable_text a Ha) as (_ & Hskip & Hparse).
    cbn [map List.filter]. rewrite Hskip. cbn [negb map]. by rewrite Hparse, IH.
  - apply Forall_map, Forall_forall. intros a Ha.
    rewrite Forall_forall in Hall. by destruct (printable_text a (Hall a Ha)).
Qed.

End RoundTrip.

Lemma printAuthors_getAuthors_witness :
  getAuthors
    (printAuthors (fun s t => String.eqb (Sort.lowerAscii s) (Sort.lowerAscii t))
       [mkAuthor "Jakob Borg" "calmh" ["jakob@kastelo.net"; "jborg@x.org"] 7 2;
        mkAuthor "Al" "AL" [] 3 1])
  = [mkAuthor "Jakob Borg" "calmh" ["jakob@kastelo.net"; "jborg@x.org"] 0 0;
     mkAuthor "Al" "" [] 0 0].
Proof.
  apply (printAuthors_getAuthors
           (fun s t => String.eqb (Sort.lowerAscii s) (Sort.lowerAscii t))
           [mkAuthor "Jakob Borg" "calmh" ["jakob@kastelo.net"; "jborg@x.org"] 7 2;
            mkAuthor "Al" "AL" [] 3 1]).
  repeat constructor; try discriminate; try reflexivity.
  - exists "Jakob", ["Borg"]. repeat constructor; try discriminate; reflexivity.
  - exists "Al", []. repeat constructor; try discriminate; reflexivity.
Defined.

(** ** Blank lines of the roster *)

Lemma Split_none (c : ascii) (s : string) : c ∉ bytes s → Str.Split c s = [s].
Proof.
  induction s as [|a s IH]; intros Hs; [done |].
  cbn [bytes list_ascii_of_string] in Hs. apply not_elem_of_cons in Hs as [Hne Hs].
  cbn [Str.Split]. destruct (Ascii.eqb_spec a c) as [-> | _]; [done |].
  by rewrite (IH Hs).
Qed.

Lemma Fields_blank (s : string) :
  Forall (fun a => Str.isAsciiSpace a = true) (bytes s) → Str.Fields s = [].
Proof.
  unfold Str.Fields. induction s as [|a s IH]; intros Hs; [done |].
  cbn [bytes list_ascii_of_string] in Hs. apply Forall_cons in Hs as [Ha Hs].
  rewrite fieldsAux_cons.
  assert (Hw : Str.spaceWidth (String a s) = 1%nat).
  { unfold Str.spaceWidth. by rewrite Ha. }
  rewrite Hw. cbn [flush app]. by apply IH.
Qed.

(** X19. A roster line made only of spaces and tabs is not skipped as a
    blank line: only the empty line and the lines that start with [#] are,
    and such a line gives a Contributor with the empty name, no nickname and
    no email. *)
Theorem getAuthors_blank_line (line : string) :
  line ≠ "" →
  Forall (fun a => a = " "%char ∨ a = "009"%char) (bytes line) →
  getAuthors line = [zeroAuthor].
Proof.
  intros Hne Hall. rewrite getAuthors_map, Split_none.
  - cbn [List.filter].
    assert (Hskip : skipLine line = false).
    { destruct line as [|a line]; [done |].
      cbn [bytes list_ascii_of_string] in Hall.
      apply Forall_cons in Hall as [[-> | ->] _]; reflexivity. }
    rewrite Hskip. cbn [negb map]. rewrite Fields_blank; [done |].
    eapply Forall_impl; [exact Hall |]. by intros a [-> | ->].
  - intros Hin. rewrite Forall_forall in Hall.
    destruct (Hall _ Hin); discriminate.
Qed.

Lemma getAuthors_blank_line_witness :
  getAuthors (String " " (String "009" " ")) = [zeroAuthor].
Proof.
  apply getAuthors_blank_line; [discriminate |].
  repeat constructor; by right.
Defined.

(** ** One Contributor for an email *)

Lemma reconcileStep_where (st st' : recState) (e' n : string) :
  reconcileStep st (e', n) = Some st' →
  st' = st
  ∨ ((e' ∉ listed st)
     ∧ ∃ k0, ∀ k b e, authors st' !! k = Some b → e ∈ emails b →
                      (∃ b0, authors st !! k = Some b0 ∧ e ∈ emails b0)
                      ∨ (e = e' ∧ k = k0)).
Proof.
  intros Hstep.
  destruct (reconcileStep_cases _ _ _ _ Hstep)
    as [_ -> | i a Hnot Hne Hn Hi -> | Hnot Hn ->]; [by left | |];
    right; (split; [done |]); cbn [authors].
  - exists i. intros k b e Hk He.
    apply list_lookup_insert_Some in Hk as [(<- & <- & _) | [_ Hk]]; [| eauto].
    cbn [emails set_emails] in He. apply elem_of_app in He as [He | He]; [eauto |].
    apply list_elem_of_singleton in He. by right.
  - exists (length (authors st)). intros k b e Hk He.
    apply lookup_snoc_Some in Hk as [[_ Hk] | [-> <-]]; [eauto |].
    cbn [emails] in He. apply list_elem_of_singleton in He. by right.
Qed.

Lemma notInTwo_step (e : string) (st st' : recState) (e' n : string) :
  recInv st → notInTwo e (authors st) →
  reconcileStep st (e', n) = Some st' → notInTwo e (authors st').
Proof.
  intros [Hlisted _] Hone Hstep.
  destruct (reconcileStep_where _ _ _ _ Hstep) as [-> | (Hnot & k0 & Hwhere)];
    [done |].
  assert (Hold : ∀ k b0, authors st !! k = Some b0 → e ∈ emails b0 → e ≠ e').
  { intros k b0 Hk He ->. apply Hnot, Hlisted, allEmails_lookup. eauto. }
  intros i j a b Hi Hj Ha Hb.
  destruct (Hwhere i a e Hi Ha) as [(a0 & Hi0 & Ha0) | [Hei Hki]];
    destruct (Hwhere j b e Hj Hb) as [(b0 & Hj0 & Hb0) | [Hej Hkj]].
  - by apply (Hone i j a0 b0).
  - exfalso. by apply (Hold i a0).
  - exfalso. by apply (Hold j b0).
  - congruence.
Qed.

(** C2, as amended. After reconciliation, for every roster, every history
    and every order in which its identities are visited, an email that
    appears in the reconciled roster is in the [emails] of exactly one
    Contributor, unless the roster itself already gave that email to two
    Contributors (and then it stays in both). *)
Theorem reconcile_emails_unique (roster : list author)
    (entries : list (string * string)) :
  ∃ res, reconcile roster entries = Some res
         ∧ ∀ e, e ∈ allEmails res → (inOne e res ↔ notInTwo e roster).
Proof.
  destruct (reconcile_total roster entries) as (st & Hloop & Hrec).
  exists (authors st). split; [done |]. intros e He.
  assert (Hkeep : keepsRoster roster st).
  { eapply (reconcileLoop_keeps (keepsRoster roster));
      [| apply initRec_inv | | exact Hloop].
    - intros s s' e' n _ _ Hs Hstep. by eapply keepsRoster_step.
    - split; rewrite initRec_authors; [done |].
      intros i c Hc. exists c. split; [done | apply extended_refl]. }
  split.
  - intros (i & a & Hi & Ha & Huniq) i1 i2 a1 a2 H1 H2 He1 He2.
    destruct Hkeep as [_ Hkeep].
    destruct (Hkeep i1 a1 H1) as (c1 & Hc1 & _ & _ & _ & _ & Hp1).
    destruct (Hkeep i2 a2 H2) as (c2 & Hc2 & _ & _ & _ & _ & Hp2).
    pose proof (Huniq i1 c1 Hc1 (elem_of_prefix _ _ _ He1 Hp1)) as E1.
    pose proof (Huniq i2 c2 Hc2 (elem_of_prefix _ _ _ He2 Hp2)) as E2.
    congruence.
  - intros Hone.
    assert (Hres : notInTwo e (authors st)).
    { eapply (reconcileLoop_keeps (fun s => notInTwo e (authors s)));
        [| apply initRec_inv | by rewrite initRec_authors | exact Hloop].
      intros s s' e' n _ Hinv Hs Hstep. by eapply notInTwo_step. }
    apply allEmails_lookup in He as (i & a & Hi & Ha).
    exists i, a. split; [done |]. split; [done |].
    intros j b Hj Hb. by apply (Hres j i b a).
Qed.

(** ** The Contributor that a name gives *)

(** C3, as stated, fails: both roster Contributors bear the name [Bob] of
    the discovered email [e2@x], which no roster Contributor lists, and the
    first of them does not receive it: the name index holds the last. *)
Lemma reconcile_name_match_first_of_two :
  getAuthors ("Bob <b1@x>" ++ LF ++ "Bob (Bobby) <b2@x>")
  = [mkAuthor "Bob" "" ["b1@x"] 0 0; mkAuthor "Bob" "Bobby" ["b2@x"] 0 0]
  ∧ map_to_list (allAuthors ∅ "h1 e2@x Bob") = [("e2@x", "Bob")]
  ∧ reconcile (getAuthors ("Bob <b1@x>" ++ LF ++ "Bob (Bobby) <b2@x>"))
              (map_to_list (allAuthors ∅ "h1 e2@x Bob"))
    = Some [mkAuthor "Bob" "" ["b1@x"] 0 0;
            mkAuthor "Bob" "Bobby" ["b2@x"; "e2@x"] 0 0].
Proof. repeat split; vm_compute; reflexivity. Qed.

(** ** The geekrank *)

Lemma upto_spec (fuel : nat) (n : Z) (f : Z → bool) :
  Go.upto fuel n f = true → ∀ m, n <= m < n + Z.of_nat fuel → f m = true.
Proof.
  revert n. induction fuel as [|k IH]; intros n H m Hm; [lia |].
  cbn [Go.upto] in H. apply andb_true_iff in H as [Hn Hrest].
  destruct (decide (m = n)) as [-> | Hne]; [done |].
  apply (IH (n + 1) Hrest). lia.
Qed.

(** The rank of a power of two is its exponent. *)
Lemma intLog2_pow2 (indefinite : float → Z) (k : Z) :
  0 <= k <= 62 → Go.intLog2 indefinite (2 ^ k) = k.
Proof.
  intros Hk. apply Z.eqb_eq.
  apply (upto_spec 63 0 (fun k => Go.intLog2 indefinite (2 ^ k) =? k)); [| lia].
  vm_compute. reflexivity.
Qed.

(** Up to 65535 commits the rank is the integer binary logarithm. *)
Lemma intLog2_small (indefinite : float → Z) (commits : Z) :
  1 <= commits < 2 ^ 16 → Go.intLog2 indefinite commits = Z.log2 commits.
Proof.
  intros Hc. apply Z.eqb_eq.
  apply (upto_spec (Z.to_nat 65535) 1
           (fun n => Go.intLog2 indefinite n =? Z.log2 n)); [| lia].
  vm_compute. reflexivity.
Qed.

(** Just below a large power of two the float logarithm rounds up. *)
Lemma intLog2_below_pow2 (indefinite : float → Z) :
  Go.intLog2 indefinite (2 ^ 49 - 1) = 49 ∧ Z.log2 (2 ^ 49 - 1) = 48.
Proof. split; vm_compute; reflexivity. Qed.

(** C4, on the code. The roster lists Bob, who has no commit in the
    history.  The counter computes his geekrank from zero commits with no
    guard: [math.Log2] of zero is minus infinity, and the geekrank is
    whatever the conversion of minus infinity to [int] gives on the platform,
    not a sentinel that the code defines.  (Al, with one commit, has rank
    zero.) *)
Theorem mainCounted_zero_commits_rank (indefinite : float -> Z) (res : list author) :
  Go.Log2 (Go.float64 0) = neg_infinity
  ∧ (mainCounted (Go.intLog2 indefinite) (Some "Bob <bob@x.com>") None
       [mkCommit "h1" "a@x.com" "Al"] res
     ↔ res = [mkAuthor "Bob" "" ["bob@x.com"] 0 (indefinite neg_infinity);
              mkAuthor "Al" "" ["a@x.com"] 1 0]).
Proof.
  split; [vm_compute; reflexivity |].
  assert (Hd : map_to_list (discovered None [mkCommit "h1" "a@x.com" "Al"])
               = [("a@x.com", "Al")]) by (vm_compute; reflexivity).
  unfold mainCounted, rangeOrder. rewrite Hd. split.
  - intros (entries & Hperm & Hres).
    apply Permutation_singleton_r in Hperm as ->.
    vm_compute in Hres. injection Hres as <-. vm_compute. reflexivity.
  - intros ->. exists [("a@x.com", "Al")]. split; [done |].
    vm_compute. reflexivity.
Qed.

(** ** Swapping *)






